(** * CMatrix: a shallow embedding of [matrix.c] and its checked properties

    The program is a one-file dense-matrix toolbox over C [double]s stored
    row-major in a flat buffer.  The embedding below follows the source
    function by function.

    Modelling conventions:
    - [size_t] dimensions and indices are [nat]; every buffer the program
      touches exists in memory, so no index computation wraps;
    - a buffer [double *] is a [seq] of numbers, read with [nth] and written
      with [set_nth];
    - a possibly-NULL [Matrix *] is an [option Matrix];
    - [malloc] and [calloc] are taken to succeed: the out-of-memory exits
      ([if (!p) return NULL]) are not modelled;
    - the arithmetic is a parameter ([Arith]): instantiated with IEEE-754
      binary64 ([binary64], the machine [double], evaluated strictly, without
      fused or extended-precision intermediate results) and with an exact
      ordered field ([exact]) that idealises rounding away. *)

From Stdlib Require Import ZArith Floats String Lia.
From HB Require Import structures.
From mathcomp Require Import boot order algebra perm binnums.

Set Implicit Arguments.
Unset Strict Implicit.
Unset Printing Implicit Defensive.

(** ** Arithmetic interface *)

Record Arith := MkArith {
  num :> Type;
  zero : num;
  one : num;
  add : num -> num -> num;
  sub : num -> num -> num;
  mul : num -> num -> num;
  div : num -> num -> num;
  opp : num -> num;
  fabs : num -> num;
  ltb : num -> num -> bool;
  EPS : num;                (* #define EPS 1e-12 *)
  of_int : int -> num       (* conversion of a C int to double *)
}.

(** ** Loops *)

(** [for (i = lo; i < hi; ++i) s = body i s] *)
Definition for_range (S : Type) (lo hi : nat) (body : nat -> S -> S) (s : S) : S :=
  foldl (fun s i => body i s) s (iota lo (hi - lo)).

(** A loop whose body may leave early ([break] or [return]) with a result. *)
Fixpoint for_exit (S R : Type) (body : nat -> S -> R + S) (idx : seq nat) (s : S)
  : R + S :=
  if idx is i :: idx' then
    match body i s with
    | inl r => inl r
    | inr s' => for_exit body idx' s'
    end
  else inr s.

(** ** The program *)

Section Program.

Variable A : Arith.

Record Matrix := mkMatrix {
  rows : nat;
  cols : nat;
  data : seq A   (* contiguous storage: data[i*cols + j] *)
}.

Definition well_formed (m : Matrix) : Prop := size (data m) = rows m * cols m.

Definition rd (buf : seq A) (k : nat) : A := nth (zero A) buf k.
Definition wr (buf : seq A) (k : nat) (v : A) : seq A := set_nth (zero A) buf k v.

Definition matrix_create (r c : nat) : Matrix :=
  mkMatrix r c (nseq (r * c) (zero A)).

Definition matrix_get (m : Matrix) (i j : nat) : A := rd (data m) (i * cols m + j).

Definition matrix_set (m : Matrix) (i j : nat) (v : A) : Matrix :=
  mkMatrix (rows m) (cols m) (wr (data m) (i * cols m + j) v).

Definition matrix_clone (a : Matrix) : Matrix :=
  mkMatrix (rows a) (cols a)
    (take (rows a * cols a) (data a) ++
     drop (size (data a)) (nseq (rows a * cols a) (zero A))).

Definition matrix_add_sub (a b : option Matrix) (subtract : int) : option Matrix :=
  match a, b with
  | Some a, Some b =>
    if (rows a != rows b) || (cols a != cols b) then None
    else
      let c := matrix_create (rows a) (cols a) in
      Some (mkMatrix (rows c) (cols c)
        (for_range 0 (rows a * cols a)
           (fun i cd =>
              wr cd i (add (rd (data a) i)
                           (if subtract != 0 then opp (rd (data b) i)
                            else rd (data b) i)))
           (data c)))
  | _, _ => None
  end.

Definition matrix_multiply (a b : option Matrix) : option Matrix :=
  match a, b with
  | Some a, Some b =>
    if cols a != rows b then None
    else
      let c := matrix_create (rows a) (cols b) in
      Some (mkMatrix (rows c) (cols c)
        (for_range 0 (rows a) (fun i =>
           for_range 0 (cols a) (fun k cd =>
             let aik := matrix_get a i k in
             for_range 0 (cols b) (fun j cd =>
               wr cd (i * cols c + j)
                  (add (rd cd (i * cols c + j)) (mul aik (matrix_get b k j))))
               cd))
           (data c)))
  | _, _ => None
  end.

Definition matrix_transpose (a : Matrix) : Matrix :=
  for_range 0 (rows a) (fun i =>
    for_range 0 (cols a) (fun j t => matrix_set t j i (matrix_get a i j)))
    (matrix_create (cols a) (rows a)).

(** *** Row reduction *)

(** Pivot search in column [i] of a buffer with rows of width [w]:
    [piv = i; for (r = i; r < n; ++r) if (fabs(M[r*w+i]) > fabs(M[piv*w+i])) piv = r;] *)
Definition find_pivot (w n i : nat) (M : seq A) : nat :=
  for_range i n
    (fun r piv =>
       if ltb (fabs (rd M (piv * w + i))) (fabs (rd M (r * w + i))) then r else piv)
    i.

(** [for (c = 0; c < len; ++c) { tmp = M[i*w+c]; M[i*w+c] = M[piv*w+c]; M[piv*w+c] = tmp; }] *)
Definition swap_rows (w len i piv : nat) (M : seq A) : seq A :=
  for_range 0 len
    (fun c M =>
       let tmp := rd M (i * w + c) in
       let M := wr M (i * w + c) (rd M (piv * w + c)) in
       wr M (piv * w + c) tmp)
    M.

(** State of the determinant loop: working copy, [det], [sign]. *)
Record det_state := DetState {
  ds_mat : seq A;
  ds_det : A;
  ds_sign : int
}.

(** Elimination below the pivot row [i] in [matrix_determinant]. *)
Definition det_eliminate (n i : nat) (pivot : A) (mat : seq A) : seq A :=
  for_range i.+1 n
    (fun r mat =>
       let factor := div (rd mat (r * n + i)) pivot in
       for_range i n
         (fun c mat =>
            wr mat (r * n + c) (sub (rd mat (r * n + c)) (mul factor (rd mat (i * n + c)))))
         mat)
    mat.

(** One iteration of the outer loop of [matrix_determinant];
    [inl] is the [break] taken on a pivot below [EPS]. *)
Definition det_step (n i : nat) (st : det_state) : det_state + det_state :=
  let mat := ds_mat st in
  let piv := find_pivot n n i mat in
  if ltb (fabs (rd mat (piv * n + i))) (EPS A) then
    inl (DetState mat (zero A) (ds_sign st))
  else
    let swap := piv != i in
    let mat := if swap then swap_rows n n i piv mat else mat in
    let sign := if swap then (- ds_sign st)%R else ds_sign st in
    let pivot := rd mat (i * n + i) in
    let det := mul (ds_det st) pivot in
    inr (DetState (det_eliminate n i pivot mat) det sign).

Definition det_loop (n : nat) (st : det_state) : det_state :=
  match for_exit (det_step n) (iota 0 n) st with
  | inl st' => st'
  | inr st' => st'
  end.

(** The working copy: [memcpy(mat, a->data, n*n*sizeof(double))]. *)
Definition det_init (a : Matrix) : det_state :=
  let n := rows a in
  DetState (take (n * n) (data a)) (one A) 1%R.

(** [matrix_determinant]: the value returned and the lines written to stderr. *)
Definition matrix_determinant (a : option Matrix) : A * seq string :=
  match a with
  | None => (zero A, [::])
  | Some a =>
    if rows a != cols a then
      (zero A, [:: "Determinant: matrix is not square"%string])
    else
      let st := det_loop (rows a) (det_init a) in
      (mul (ds_det st) (of_int A (ds_sign st)), [::])
  end.

(** Build of the augmented buffer [[A | I]], [n] rows of width [2n]. *)
Definition inv_init (a : Matrix) : seq A :=
  let n := rows a in
  for_range 0 n (fun i =>
    for_range 0 n (fun j E =>
      let E := wr E (i * (2 * n) + j) (matrix_get a i j) in
      wr E (i * (2 * n) + (n + j)) (if i == j then one A else zero A)))
    (nseq (n * 2 * n) (zero A)).

(** [for (c = 0; c < 2*n; ++c) E[i*(2*n) + c] /= div;] *)
Definition inv_normalize (n i : nat) (E : seq A) : seq A :=
  let d := rd E (i * (2 * n) + i) in
  for_range 0 (2 * n) (fun c E => wr E (i * (2 * n) + c) (div (rd E (i * (2 * n) + c)) d)) E.

(** Elimination of column [i] from every other row in [matrix_inverse]. *)
Definition inv_eliminate (n i : nat) (E : seq A) : seq A :=
  for_range 0 n
    (fun r E =>
       if r == i then E
       else
         let factor := rd E (r * (2 * n) + i) in
         if ltb (fabs factor) (EPS A) then E
         else
           for_range 0 (2 * n)
             (fun c E =>
                wr E (r * (2 * n) + c)
                   (sub (rd E (r * (2 * n) + c)) (mul factor (rd E (i * (2 * n) + c)))))
             E)
    E.

(** One iteration of the outer loop of [matrix_inverse];
    [inl tt] is the [return NULL] taken on a pivot below [EPS]. *)
Definition inv_step (n i : nat) (E : seq A) : unit + seq A :=
  let piv := find_pivot (2 * n) n i E in
  if ltb (fabs (rd E (piv * (2 * n) + i))) (EPS A) then inl tt
  else
    let E := if piv != i then swap_rows (2 * n) (2 * n) i piv E else E in
    let E := inv_normalize n i E in
    inr (inv_eliminate n i E).

(** Copy of the right half of the augmented buffer into the result. *)
Definition inv_extract (n : nat) (E : seq A) : Matrix :=
  let inv := matrix_create n n in
  mkMatrix n n
    (for_range 0 n (fun i =>
       for_range 0 n (fun j d => wr d (i * n + j) (rd E (i * (2 * n) + (n + j)))))
       (data inv)).

(** [matrix_inverse]: the pointer returned and the lines written to stderr. *)
Definition matrix_inverse (a : option Matrix) : option Matrix * seq string :=
  match a with
  | None => (None, [::])
  | Some a =>
    if rows a != cols a then
      (None, [:: "Inverse: matrix is not square"%string])
    else
      let n := rows a in
      match for_exit (inv_step n) (iota 0 n) (inv_init a) with
      | inl _ => (None, [::])
      | inr E => (Some (inv_extract n E), [::])
      end
  end.

End Program.

(** ** The same routines over an explicit heap

    [matrix_determinant] and [matrix_inverse] once more, this time with the
    memory they touch made explicit: the argument is an address, the working
    buffers are blocks obtained from [malloc], and every assignment
    [buf[k] = v] is a store into the heap. *)

Section HeapProgram.

Variable A : Arith.

Inductive obj :=
| Struct (r c : nat) (d : nat)   (* a [Matrix]: rows, cols, address of data *)
| Block (cells : seq A).         (* an array of doubles *)

(** Addresses are indices; a freed or never allocated address holds [None]. *)
Definition heap := seq (option obj).

Definition block (h : heap) (p : nat) : seq A :=
  if nth None h p is Some (Block cs) then cs else [::].

(** [p[k]] *)
Definition hrd (h : heap) (p k : nat) : A := rd (block h p) k.

(** [p[k] = v] *)
Definition hwr (h : heap) (p k : nat) (v : A) : heap :=
  if nth None h p is Some (Block cs) then set_nth None h p (Some (Block (wr cs k v)))
  else h.

(** [malloc]/[calloc]: a new object at an address not in use. *)
Definition halloc (h : heap) (o : obj) : heap * nat := (rcons h (Some o), size h).

Definition hfree (h : heap) (p : nat) : heap :=
  if p < size h then set_nth None h p None else h.

(** [memcpy(dst, src, len * sizeof(double))] *)
Definition hcopy (dst src len : nat) (h : heap) : heap :=
  for_range 0 len (fun k h => hwr h dst k (hrd h src k)) h.

Definition find_pivot_h (w n i p : nat) (h : heap) : nat :=
  for_range i n
    (fun r piv =>
       if ltb (fabs (hrd h p (piv * w + i))) (fabs (hrd h p (r * w + i))) then r else piv)
    i.

Definition swap_rows_h (w len i piv p : nat) (h : heap) : heap :=
  for_range 0 len
    (fun c h =>
       let tmp := hrd h p (i * w + c) in
       let h := hwr h p (i * w + c) (hrd h p (piv * w + c)) in
       hwr h p (piv * w + c) tmp)
    h.

Definition det_eliminate_h (n i : nat) (pivot : A) (mat : nat) (h : heap) : heap :=
  for_range i.+1 n
    (fun r h =>
       let factor := div (hrd h mat (r * n + i)) pivot in
       for_range i n
         (fun c h =>
            hwr h mat (r * n + c)
                (sub (hrd h mat (r * n + c)) (mul factor (hrd h mat (i * n + c)))))
         h)
    h.

Definition det_step_h (n mat i : nat) (st : heap * A * int)
  : heap * A * int + heap * A * int :=
  let: (h, det, sign) := st in
  let piv := find_pivot_h n n i mat h in
  if ltb (fabs (hrd h mat (piv * n + i))) (EPS A) then inl (h, zero A, sign)
  else
    let swap := piv != i in
    let h := if swap then swap_rows_h n n i piv mat h else h in
    let sign := if swap then (- sign)%R else sign in
    let pivot := hrd h mat (i * n + i) in
    let det := mul det pivot in
    inr (det_eliminate_h n i pivot mat h, det, sign).

Definition matrix_determinant_h (h : heap) (a : option nat) : heap * A * seq string :=
  match a with
  | None => (h, zero A, [::])
  | Some pa =>
    match nth None h pa with
    | Some (Struct r c d) =>
      if r != c then (h, zero A, [:: "Determinant: matrix is not square"%string])
      else
        let n := r in
        let: (h, mat) := halloc h (Block (nseq (n * n) (zero A))) in
        let h := hcopy mat d (n * n) h in
        let: (h, det, sign) :=
          match for_exit (det_step_h n mat) (iota 0 n) (h, one A, 1%R) with
          | inl st => st
          | inr st => st
          end in
        let det := mul det (of_int A sign) in
        (hfree h mat, det, [::])
    | _ => (h, zero A, [::])   (* not a matrix: outside the defined behaviour *)
    end
  end.

Definition inv_init_h (n d E : nat) (h : heap) : heap :=
  for_range 0 n (fun i =>
    for_range 0 n (fun j h =>
      let h := hwr h E (i * (2 * n) + j) (hrd h d (i * n + j)) in
      hwr h E (i * (2 * n) + (n + j)) (if i == j then one A else zero A)))
    h.

Definition inv_normalize_h (n i E : nat) (h : heap) : heap :=
  let dv := hrd h E (i * (2 * n) + i) in
  for_range 0 (2 * n)
    (fun c h => hwr h E (i * (2 * n) + c) (div (hrd h E (i * (2 * n) + c)) dv)) h.

Definition inv_eliminate_h (n i E : nat) (h : heap) : heap :=
  for_range 0 n
    (fun r h =>
       if r == i then h
       else
         let factor := hrd h E (r * (2 * n) + i) in
         if ltb (fabs factor) (EPS A) then h
         else
           for_range 0 (2 * n)
             (fun c h =>
                hwr h E (r * (2 * n) + c)
                    (sub (hrd h E (r * (2 * n) + c))
                         (mul factor (hrd h E (i * (2 * n) + c)))))
             h)
    h.

(** [inl h] is the [free(E); return NULL] exit, with the heap left behind. *)
Definition inv_step_h (n E i : nat) (h : heap) : heap + heap :=
  let piv := find_pivot_h (2 * n) n i E h in
  if ltb (fabs (hrd h E (piv * (2 * n) + i))) (EPS A) then inl (hfree h E)
  else
    let h := if piv != i then swap_rows_h (2 * n) (2 * n) i piv E h else h in
    let h := inv_normalize_h n i E h in
    inr (inv_eliminate_h n i E h).

(** [matrix_create]: the struct, then its zero-filled data. *)
Definition matrix_create_h (r c : nat) (h : heap) : heap * nat :=
  let: (h, m) := halloc h (Struct r c 0) in
  let: (h, d) := halloc h (Block (nseq (r * c) (zero A))) in
  (set_nth None h m (Some (Struct r c d)), m).

Definition inv_extract_h (n E dst : nat) (h : heap) : heap :=
  for_range 0 n (fun i =>
    for_range 0 n (fun j h => hwr h dst (i * n + j) (hrd h E (i * (2 * n) + (n + j)))))
    h.

Definition matrix_inverse_h (h : heap) (a : option nat)
  : heap * option nat * seq string :=
  match a with
  | None => (h, None, [::])
  | Some pa =>
    match nth None h pa with
    | Some (Struct r c d) =>
      if r != c then (h, None, [:: "Inverse: matrix is not square"%string])
      else
        let n := r in
        let: (h, E) := halloc h (Block (nseq (n * 2 * n) (zero A))) in
        let h := inv_init_h n d E h in
        match for_exit (inv_step_h n E) (iota 0 n) h with
        | inl h => (h, None, [::])
        | inr h =>
          let: (h, inv) := matrix_create_h n n h in
          let dst := if nth None h inv is Some (Struct _ _ dst) then dst else 0 in
          let h := inv_extract_h n E dst h in
          (hfree h E, Some inv, [::])
        end
    | _ => (h, None, [::])   (* not a matrix: outside the defined behaviour *)
    end
  end.

(** The matrix a heap holds at an address. *)
Definition matrix_at (h : heap) (p : nat) : option (Matrix A) :=
  if nth None h p is Some (Struct r c d) then Some (mkMatrix r c (block h d))
  else None.

(** [same_except p h h']: the two heaps have the same extent and hold the
    same object at every address other than [p]. *)
Definition same_except (p : nat) (h h' : heap) : Prop :=
  size h' = size h /\ forall q, q != p -> nth None h' q = nth None h q.

(** [old_kept h0 h]: [h] extends [h0] and every address in use in [h0]
    holds the same object in [h]. *)
Definition old_kept (h0 h : heap) : Prop :=
  size h0 <= size h /\ forall q, q < size h0 -> nth None h q = nth None h0 q.

End HeapProgram.

(** ** Buffers seen as tables *)

Section Views.

Variable A : Arith.
Variables (n w : nat).

(** [agrees b f]: the buffer holds [n] rows of width [w] and cell [(r, c)]
    is [f r c]. *)
Definition agrees (b : seq A) (f : nat -> nat -> A) : Prop :=
  size b = n * w /\
  forall r c, r < n -> c < w -> rd b (r * w + c) = f r c.

(** The table left by the elimination of column [i] in [matrix_inverse]. *)
Definition inv_eliminated (i : nat) (f : nat -> nat -> A) : nat -> nat -> A :=
  fun r c =>
    if r == i then f r c
    else if ltb (fabs (f r i)) (EPS A) then f r c
    else sub (f r c) (mul (f r i) (f i c)).

(** The table left by the elimination below row [i] in [matrix_determinant]. *)
Definition det_eliminated (i : nat) (pivot : A) (f : nat -> nat -> A) : nat -> nat -> A :=
  fun r c =>
    if (i < r) && (i <= c) then sub (f r c) (mul (div (f r i) pivot) (f i c))
    else f r c.

(** The identity matrix of order [n]. *)
Definition identity_table (r c : nat) : A := if r == c then one A else zero A.

Definition identity_matrix (k : nat) : Matrix A :=
  mkMatrix k k (mkseq (fun j => identity_table (j %/ k) (j %% k)) (k * k)).

(** The augmented table [[I | I]] of order [k]. *)
Definition augmented_identity (k r c : nat) : A :=
  if c < k then identity_table r c else identity_table r (c - k).

(** Entry [(r, c)] of the product as the source accumulates it: starting
    from zero, [a[r][k] * b[k][c]] is added for [k = 0, 1, ...]. *)
Definition dot_upto (a b : Matrix A) (m r c : nat) : A :=
  foldl (fun acc k => add acc (mul (matrix_get a r k) (matrix_get b k c)))
        (zero A) (iota 0 m).

End Views.

(** ** Reading of the specification: pivots and sign

    The specification describes the determinant by what happens to the
    matrix, column after column: the row of [i .. n-1] with the largest
    entry in column [i] is chosen; below [EPS] the computation stops with
    zero; otherwise that row is exchanged with row [i], the sign flips, the
    accumulator is multiplied by the new diagonal entry, and column [i] is
    eliminated from the rows below.  The definitions of this section follow
    these words on matrices seen as tables [f r c]; none of them refers to
    the loops of the program.  [spec_run] is the resulting relation between
    the table at column [i] and the outcome of the remaining columns. *)

Section Reading.

Variable A : Arith.

(** Row [piv] holds an entry of maximal magnitude in column [i] among the
    rows [i .. n-1] of a buffer with rows of width [w]. *)
Definition pivot_row (w n i : nat) (M : seq A) (piv : nat) : Prop :=
  i <= piv < n /\
  forall r, i <= r < n ->
    ltb (fabs (rd M (piv * w + i))) (fabs (rd M (r * w + i))) = false.

Inductive outcome :=
| Singular (swaps : nat)
| Triangular (pivots : seq A) (swaps : nat).

(** Step 1: row [piv] is one of [i .. n-1] whose entry in column [i] no row
    of that range exceeds in magnitude. *)
Definition largest_in_column (n i : nat) (f : nat -> nat -> A) (piv : nat) : Prop :=
  i <= piv < n /\
  forall r, i <= r < n -> ltb (fabs (f piv i)) (fabs (f r i)) = false.

(** Step 3: rows [i] and [p] exchanged. *)
Definition rows_exchanged (i p : nat) (f : nat -> nat -> A) : nat -> nat -> A :=
  fun r c => if r == i then f p c else if r == p then f i c else f r c.

(** Step 5: for every row [r > i], with [factor = mat[r][i] / mat[i][i]], the
    entry [mat[r][c]] loses [factor * mat[i][c]] for all [c >= i]. *)
Definition column_eliminated (i : nat) (f : nat -> nat -> A) : nat -> nat -> A :=
  fun r c =>
    if (i < r) && (i <= c) then sub (f r c) (mul (div (f r i) (f i i)) (f i c))
    else f r c.

Inductive spec_run (n : nat) : nat -> (nat -> nat -> A) -> outcome -> Prop :=
| spec_done f : spec_run n n f (Triangular [::] 0)
| spec_singular i f piv :
    i < n -> largest_in_column n i f piv ->
    ltb (fabs (f piv i)) (EPS A) = true ->
    spec_run n i f (Singular 0)
| spec_column i f piv f' g out :
    i < n -> largest_in_column n i f piv ->
    ltb (fabs (f piv i)) (EPS A) = false ->
    f' = (if piv != i then rows_exchanged i piv f else f) ->
    (forall r c, r < n -> c < n -> g r c = column_eliminated i f' r c) ->
    spec_run n i.+1 g out ->
    spec_run n i f
      match out with
      | Singular k => Singular ((piv != i) + k)
      | Triangular ps k => Triangular (f' i i :: ps) ((piv != i) + k)
      end.

(** The sign after [k] swaps, as the C [int] that is multiplied in. *)
Definition sign_of (k : nat) : int := ((-1) ^+ k)%R.

(** The value the specification assigns to an outcome: pivots multiplied
    left to right into an accumulator that starts at one (zero when the
    elimination stopped), then multiplied by the sign. *)
Definition outcome_value (o : outcome) : A :=
  match o with
  | Singular k => mul (zero A) (of_int A (sign_of k))
  | Triangular ps k => mul (foldl (@mul A) (one A) ps) (of_int A (sign_of k))
  end.

(** The same, continuing from an accumulator [det] and a sign [sign]. *)
Definition run_value (det : A) (sign : int) (o : outcome) : A :=
  match o with
  | Singular k => mul (zero A) (of_int A (sign * sign_of k)%R)
  | Triangular ps k => mul (foldl (@mul A) det ps) (of_int A (sign * sign_of k)%R)
  end.

End Reading.

(** ** The machine instance: IEEE-754 binary64 *)

Definition float_of_nat (n : nat) : float :=
  PrimFloat.of_uint63 (Uint63.of_Z (Z.of_nat n)).

Definition float_of_int (z : int) : float :=
  match z with
  | Posz n => float_of_nat n
  | Negz n => PrimFloat.opp (float_of_nat n.+1)
  end.

(** The double nearest to the decimal literal [1e-12]. *)
Definition EPS64 : float := 0x1.19799812dea11p-40%float.

Definition binary64 : Arith :=
  MkArith 0%float 1%float PrimFloat.add PrimFloat.sub PrimFloat.mul PrimFloat.div
          PrimFloat.opp PrimFloat.abs PrimFloat.ltb EPS64 float_of_int.

Definition M64 (r c : nat) (d : seq float) : Matrix binary64 :=
  @mkMatrix binary64 r c d.

(** ** Exact values of doubles, and the routines on rational numbers

    A finite double is a rational number, and the routines of the program
    can be run on rational numbers as they are: the same loops, with the
    operations of the field and [EPS] the value of the double [1e-12].  The
    run on rational numbers is the measure of rounding: a result of the
    program is free of rounding error when its entries are the values of the
    entries this run gives. *)

(** The value of the finite double of sign [s], mantissa [m] and exponent
    [e]: plus or minus [m * 2^e]. *)
Definition finite_value (s : bool) (m : positive) (e : Z) : RatDef.Q :=
  let n := if s then Z.neg m else Z.pos m in
  match e with
  | Z0 => RatDef.Qmake n 1
  | Z.pos k => RatDef.Qmake (n * Z.pow_pos 2 k) 1
  | Z.neg k => RatDef.Qmake n (Pos.pow 2 k)
  end.

(** The value of a finite double; infinities and NaN have none. *)
Definition value (x : float) : option RatDef.Q :=
  match Prim2SF x with
  | S754_zero _ => Some RatDef.Q0
  | S754_finite s m e => Some (finite_value s m e)
  | _ => None
  end.

(** The value of [EPS64]: 4951760157141521 / 2^92, a little below 10^-12. *)
Definition eps_value : RatDef.Q := RatDef.Qmake 4951760157141521 (Pos.pow 2 92).

Definition Z_of_int (z : int) : Z :=
  match z with
  | Posz n => Z.of_nat n
  | Negz n => Z.opp (Z.of_nat n.+1)
  end.

Definition rational : Arith :=
  MkArith RatDef.Q0 RatDef.Q1 RatDef.Qplus RatDef.Qminus RatDef.Qmult
          (fun x y => RatDef.Qmult x (RatDef.Qinv y)) RatDef.Qopp
          (fun x => if RatDef.Qle_bool RatDef.Q0 x then x else RatDef.Qopp x)
          (fun x y => ~~ RatDef.Qle_bool y x) eps_value
          (fun z => RatDef.Qmake (Z_of_int z) 1).

(** The double [x] has the value [q]. *)
Definition has_value (x : float) (q : RatDef.Q) : bool :=
  if value x is Some v then RatDef.Qeq_bool v q else false.

(** The matrix of the values of a matrix of doubles (zero where an entry
    has none), and whether every entry has one. *)
Definition exact_values (m : Matrix binary64) : Matrix rational :=
  @mkMatrix rational (rows m) (cols m)
    [seq odflt RatDef.Q0 (value x) | x <- data m].

Definition finite_entries (m : Matrix binary64) : bool :=
  all (fun x => isSome (value x)) (data m).

(** The entries of [m] have the values [q] holds: [m] is [q] without
    rounding error. *)
Definition carries (m : Matrix binary64) (q : Matrix rational) : bool :=
  [&& rows m == rows q, cols m == cols q & all2 has_value (data m) (data q)].

(** The buffer at the start of the elimination of column [i] in
    [matrix_inverse], once the pivot row is swapped in and normalised. *)
Definition pivoted (A : Arith) (n i : nat) (E : seq A) : seq A :=
  let piv := find_pivot (2 * n) n i E in
  inv_normalize n i (if piv != i then swap_rows (2 * n) (2 * n) i piv E else E).

(** ** The routines in an ordered field

    The routines once more, over an arbitrary ordered field, with [EPS] the
    value of [EPS64].  No program runs on this instance: it is where the
    algebra of the elimination is done, and the run on rational numbers is
    carried into it. *)

Section ExactArithmetic.

Variable F : realFieldType.

(** [EPS]: the value of [EPS64]. *)
Definition exact_eps : F := ratr (rat_of_Q eps_value).

Definition exact : Arith :=
  MkArith (0 : F)%R 1%R (fun x y => x + y)%R (fun x y => x - y)%R
          (fun x y => x * y)%R (fun x y => x / y)%R (fun x => - x)%R
          (fun x => `|x|)%R (fun x y => x < y)%R exact_eps (fun z => z%:~R)%R.

(** The table as a matrix. *)
Definition table_mx (n : nat) (f : nat -> nat -> F) : 'M[F]_n :=
  (\matrix_(r < n, c < n) f r c)%R.

(** A flat matrix as a MathComp matrix. *)
Definition to_mx (n : nat) (a : Matrix exact) : 'M[F]_n := table_mx n (matrix_get a).

(** Exchange of rows [i] and [p]. *)
Definition sw (i p r : nat) : nat := if r == i then p else if r == p then i else r.

(** Every entry that the elimination skips for being below [EPS] is zero. *)
Fixpoint skips_only_zeros (n : nat) (idx : seq nat) (E : seq exact) : Prop :=
  if idx is i :: idx' then
    match inv_step n i E with
    | inl _ => True
    | inr E' =>
      (forall r, r < n -> r != i ->
         let x := rd (pivoted n i E) (r * (2 * n) + i) in
         (`|x| < exact_eps)%R -> x = 0%R) /\
      skips_only_zeros n idx' E'
    end
  else True.

(** The elimination of [matrix_determinant] runs through all columns. *)
Definition det_completes (a : Matrix exact) : Prop :=
  if for_exit (det_step (rows a)) (iota 0 (rows a)) (det_init a) is inr _
  then True else False.

(** Invariant of the determinant loop before column [i]: the working table
    has the determinant of the input up to the sign, is zero below the
    diagonal in the columns already processed, and [det] is the product of
    the diagonal entries of these columns. *)
Definition det_inv (n : nat) (A0 : 'M[F]_n) (i : nat) (st : det_state exact) : Prop :=
  exists2 f : nat -> nat -> exact, agrees n n (ds_mat st) f &
    [/\ ((ds_sign st)%:~R * \det (table_mx n f) = \det A0)%R,
        (forall r c, c < i -> c < r -> r < n -> f r c = 0%R) &
        ds_det st = (\prod_(0 <= j < i) f j j)%R].

(** Invariant of the Gauss-Jordan loop before column [i]: each row of the
    left half is the row of the right half times the input matrix, and the
    columns already processed are columns of the identity. *)
Definition inv_inv (n : nat) (a : Matrix exact) (i : nat) (E : seq exact) : Prop :=
  exists2 f : nat -> nat -> exact, agrees n (2 * n) E f &
    (forall r c, r < n -> c < n ->
       f r c = (\sum_(0 <= k < n) f r (n + k) * matrix_get a k c)%R) /\
    (forall r c, r < n -> c < i -> f r c = ((r == c)%:R)%R).

End ExactArithmetic.

(** ** Reading of the tolerance claims on binary64 *)

(** [x] and [y] differ by at most [tol]. *)
Definition close_to (tol x y : float) : bool :=
  PrimFloat.leb (PrimFloat.abs (PrimFloat.sub x y)) tol.

(** Same shape, and entries pairwise within [tol]. *)
Definition within (tol : float) (p q : Matrix binary64) : bool :=
  [&& rows p == rows q, cols p == cols q & all2 (close_to tol) (data p) (data q)].

(** Relative closeness: [|x - y| <= tol * max(|x|, |y|)]. *)
Definition rel_close (tol x y : float) : bool :=
  let ax := PrimFloat.abs x in
  let ay := PrimFloat.abs y in
  PrimFloat.leb (PrimFloat.abs (PrimFloat.sub x y))
                (PrimFloat.mul tol (if PrimFloat.ltb ax ay then ay else ax)).

(** Every pivot met by the Gauss-Jordan elimination has magnitude at
    least [EPS]. *)
Fixpoint pivots_at_least_eps (n : nat) (idx : seq nat) (E : seq float) : bool :=
  if idx is i :: idx' then
    let piv := find_pivot (A := binary64) (2 * n) n i E in
    PrimFloat.leb EPS64 (PrimFloat.abs (rd (A := binary64) E (piv * (2 * n) + i))) &&
    (if inv_step (A := binary64) n i E is inr E'
     then pivots_at_least_eps n idx' E' else false)
  else true.

Definition invertible64 (a : Matrix binary64) : bool :=
  (rows a == cols a) &&
  pivots_at_least_eps (rows a) (iota 0 (rows a)) (inv_init a).

(** ** The heap with one block replaced *)

Section HeapUpdate.

Variable A : Arith.

(** The heap [h] with the array [cs] at address [p]. *)
Definition hput (h : heap A) (p : nat) (cs : seq A) : heap A :=
  set_nth None h p (Some (Block cs)).

End HeapUpdate.

(** ** Release and copy of a matrix in the heap *)

Section HeapLifecycle.

Variable A : Arith.

(** [matrix_free]: [free(m->data); free(m);], and nothing for NULL. *)
Definition matrix_free_h (h : heap A) (m : option nat) : heap A :=
  match m with
  | None => h
  | Some p =>
    match nth None h p with
    | Some (Struct _ _ d) => hfree (hfree h d) p
    | _ => h   (* not a matrix: outside the defined behaviour *)
    end
  end.

(** [matrix_clone]: a new matrix of the shape of [a], then
    [memcpy(b->data, a->data, sizeof(double) * a->rows * a->cols)]. *)
Definition matrix_clone_h (h : heap A) (a : nat) : heap A * option nat :=
  match nth None h a with
  | Some (Struct r c d) =>
    let: (h, b) := matrix_create_h r c h in
    let dst := if nth None h b is Some (Struct _ _ dst) then dst else 0 in
    (hcopy dst d (r * c) h, Some b)
  | _ => (h, None)   (* not a matrix: outside the defined behaviour *)
  end.

End HeapLifecycle.

(** ** Random fill *)

Section Random.

Variable A : Arith.

(** The generator behind [rand()]: its state, the value a call returns with
    the state it leaves, and the largest value [RAND_MAX]. *)
Variables (G : Type) (rand : G -> int * G) (RAND_MAX : int).

Definition matrix_random (m : Matrix A) (minv maxv : A) (g : G) : Matrix A * G :=
  for_range 0 (rows m) (fun i =>
    for_range 0 (cols m) (fun j st =>
      let: (m, g) := st in
      let: (r, g) := rand g in
      (matrix_set m i j
         (add minv (mul (sub maxv minv) (div (of_int A r) (of_int A RAND_MAX)))),
       g)))
    (m, g).

(** The value of the [k]-th call of [rand()] from the state [g], counting from 0. *)
Definition rand_nth (g : G) (k : nat) : int := (rand (iter k (fun g => (rand g).2) g)).1.

End Random.

(** ** Text files

    [matrix_save_txt] and [matrix_load_txt] go through [fprintf] and
    [fscanf].  The conversions between numbers and text belong to the C
    library and stay abstract here: what is written is recorded piece by
    piece, and a file being read is known by what the two conversions of
    [fscanf] make of it. *)

Section TextFiles.

Variable A : Arith.

(** What one conversion, or one literal part of a format, adds to a file. *)
Inductive piece :=
| Size (n : nat)      (* [%zu] of a [size_t] *)
| Number (x : A)      (* [%.12g] of a [double] *)
| Space               (* " " *)
| Newline.            (* "\n" *)

(** [matrix_save_txt], given whether [fopen] succeeds: the value returned
    and the pieces written, in order. *)
Definition matrix_save_txt (opened : bool) (m : Matrix A) : int * seq piece :=
  if ~~ opened then (0%Z, [::])
  else
    let out := [:: Size (rows m); Space; Size (cols m); Newline] in
    let out :=
      for_range 0 (rows m) (fun i out =>
        let out :=
          for_range 0 (cols m) (fun j out =>
            out ++ [:: Number (matrix_get m i j); Space]) out in
        rcons out Newline) out in
    (1%Z, out).

(** A file being read: its unread part, and what [fscanf] makes of it under
    [%zu] and under [%lf] (the value and what is left, or a failure). *)
Variable stream : Type.
Variable scan_size : stream -> option (nat * stream).
Variable scan_double : stream -> option (A * stream).

(** [matrix_load_txt], given the file [fopen] returns, if any. *)
Definition matrix_load_txt (f : option stream) : option (Matrix A) :=
  match f with
  | None => None
  | Some s =>
    match scan_size s with
    | None => None
    | Some (rows, s) =>
      match scan_size s with
      | None => None
      | Some (cols, s) =>
        let m := matrix_create A rows cols in
        match
          for_exit (fun i =>
            for_exit (fun j (st : seq A * stream) =>
              let: (d, s) := st in
              match scan_double s with
              | None => inl tt
              | Some (v, s) => inr (wr d (i * cols + j) v, s)
              end) (iota 0 cols)) (iota 0 rows) (data m, s)
        with
        | inl _ => None
        | inr (d, _) => Some (mkMatrix rows cols d)
        end
      end
    end
  end.

(** [k] numbers read one after the other. *)
Fixpoint scan_doubles (k : nat) (s : stream) : option (seq A * stream) :=
  if k is k'.+1 then
    if scan_double s is Some (v, s') then
      if scan_doubles k' s' is Some (vs, s'') then Some (v :: vs, s'') else None
    else None
  else Some ([::], s).

(** The file that holds the pieces [ps] followed by [rest], given what each
    piece puts in front of a file. *)
Variables (put_size : nat -> stream -> stream) (put_double : A -> stream -> stream).
Variables (put_space put_newline : stream -> stream).

Definition written (ps : seq piece) (rest : stream) : stream :=
  foldr (fun p s =>
           match p with
           | Size n => put_size n s
           | Number x => put_double x s
           | Space => put_space s
           | Newline => put_newline s
           end) rest ps.

End TextFiles.

(** A file as the list of the pieces written into it, read back piece by
    piece: blanks are skipped, and a piece is read by the conversion that
    wrote it. *)

Section PieceFiles.

Variable A : Arith.

Fixpoint skip_blanks (s : seq (piece A)) : seq (piece A) :=
  match s with
  | Space :: s' | Newline :: s' => skip_blanks s'
  | _ => s
  end.

Definition pieces_scan_size (s : seq (piece A)) : option (nat * seq (piece A)) :=
  if skip_blanks s is Size n :: s' then Some (n, s') else None.

Definition pieces_scan_double (s : seq (piece A)) : option (A * seq (piece A)) :=
  if skip_blanks s is Number x :: s' then Some (x, s') else None.

End PieceFiles.

(** ** Maps between arithmetics *)

Section Morphisms.

Variables A B : Arith.

(** [phi] carries every operation and every comparison of [A] to [B]. *)
Record arith_morphism (phi : A -> B) : Prop := ArithMorphism {
  phi_zero : phi (zero A) = zero B;
  phi_one : phi (one A) = one B;
  phi_add : forall x y, phi (add x y) = add (phi x) (phi y);
  phi_sub : forall x y, phi (sub x y) = sub (phi x) (phi y);
  phi_mul : forall x y, phi (mul x y) = mul (phi x) (phi y);
  phi_div : forall x y, phi (div x y) = div (phi x) (phi y);
  phi_opp : forall x, phi (opp x) = opp (phi x);
  phi_fabs : forall x, phi (fabs x) = fabs (phi x);
  phi_ltb : forall x y, ltb (phi x) (phi y) = ltb x y;
  phi_EPS : phi (EPS A) = EPS B;
  phi_of_int : forall z, phi (of_int A z) = of_int B z
}.

Definition map_matrix (phi : A -> B) (m : Matrix A) : Matrix B :=
  mkMatrix (rows m) (cols m) (map phi (data m)).

End Morphisms.

(** The elimination of [matrix_determinant] runs through all columns. *)
Definition runs_through (A : Arith) (a : Matrix A) : bool :=
  if for_exit (det_step (rows a)) (iota 0 (rows a)) (det_init a) is inr _
  then true else false.

(** On rational numbers: every entry that the elimination of
    [matrix_inverse] skips for being below [EPS] is zero. *)
Fixpoint skips_zeros (n : nat) (idx : seq nat) (E : seq rational) : bool :=
  if idx is i :: idx' then
    match inv_step n i E with
    | inl _ => true
    | inr E' =>
      all (fun r =>
             let x := rd (pivoted n i E) (r * (2 * n) + i) in
             [|| r == i, ~~ ltb (fabs x) (EPS rational) | RatDef.Qeq_bool x RatDef.Q0])
          (iota 0 n) &&
      skips_zeros n idx' E'
    end
  else true.

(** A rational number in an ordered field. *)
Definition in_field (F : realFieldType) (q : RatDef.Q) : F := ratr (rat_of_Q q).

(** Matrices used in the examples. *)
(** [[1, 2^44], [2^-41, 1]]: the entry 2^-41 is below [EPS]. *)
Definition skipped_entry_example : Matrix binary64 :=
  M64 2 2 [:: 1; 0x1p44; 0x1p-41; 1]%float.
(** [[2^-44, 1], [0, 2^44]]: its first column is below [EPS], its first row is not. *)
Definition small_column_example : Matrix binary64 :=
  M64 2 2 [:: 0x1p-44; 1; 0; 0x1p44]%float.
Definition heap_example : heap binary64 :=
  [:: Some (Struct binary64 2 2 1); Some (@Block binary64 [:: 4; 3; 6; 3]%float)].
Definition add_sub_a : Matrix binary64 := M64 2 2 [:: 1; 2; 3; 4]%float.
Definition add_sub_b : Matrix binary64 := M64 2 2 [:: 0.5; 0.25; 8; 1]%float.
Definition det_example : Matrix binary64 := M64 2 2 [:: 4; 3; 6; 3]%float.
Definition singular_example : Matrix binary64 := M64 2 2 [:: 1; 2; 2; 4]%float.

(** [[0, 4], [2, 1]]: the inverse needs an exchange of rows and an
    elimination, and every quotient is a double. *)
Definition inverse_example : Matrix binary64 := M64 2 2 [:: 0; 4; 2; 1]%float.
(** [[1, 4], [2, 2]]: not symmetric, and the elimination exchanges rows. *)
Definition transpose_example : Matrix binary64 := M64 2 2 [:: 1; 4; 2; 2]%float.
(** [[100000, 70000], [30000, 21000 + 2^-38]]: no pivot is below [EPS] and
    nothing is skipped, but the elimination rounds. *)
Definition rounded_inverse_example : Matrix binary64 :=
  M64 2 2 [:: 100000; 70000; 30000; 0x1.4820000000001p+14]%float.
(** [[10, 7], [3, 2.1000000000018191]]: both eliminations run through, and
    they round differently. *)
Definition rounded_determinant_example : Matrix binary64 :=
  M64 2 2 [:: 10; 7; 3; 0x1.0ccccccccdccdp+1]%float.

(** A 3 by 3 table whose first column is 1, -5, 3: the entry of the largest
    magnitude is in the second row. *)
Definition pivot_example : seq binary64 :=
  [:: 1; 0; 0; (-5); 1; 0; 3; 0; 1]%float.

(** * Properties *)

Import Order.Theory GRing.Theory Num.Theory.

(** ** Loop lemmas *)

Section Loops.

Variable S : Type.
Implicit Types (body : nat -> S -> S) (s : S).

Lemma for_range_done lo hi body s : hi <= lo -> for_range lo hi body s = s.
Proof. by rewrite /for_range -subn_eq0 => /eqP ->. Qed.

Lemma for_range_last lo hi body s :
  lo <= hi -> for_range lo hi.+1 body s = body hi (for_range lo hi body s).
Proof.
move=> le; rewrite /for_range subSn // -addn1 iotaD foldl_cat /=.
by rewrite subnKC.
Qed.

Lemma for_range_first lo hi body s :
  lo < hi -> for_range lo hi body s = for_range lo.+1 hi body (body lo s).
Proof.
by move=> lt; rewrite /for_range -[hi - lo]prednK ?subn_gt0 // -subnS.
Qed.

(** Invariant rule: [P i] holds of the state before iteration [i]. *)
Lemma for_range_inv (P : nat -> S -> Prop) lo hi body s :
  lo <= hi -> P lo s ->
  (forall i t, lo <= i < hi -> P i t -> P i.+1 (body i t)) ->
  P hi (for_range lo hi body s).
Proof.
move=> le P0 step; elim: hi le step => [|hi IH].
  by rewrite leqn0 => /eqP <- _; rewrite for_range_done.
rewrite leq_eqVlt => /orP[/eqP <- _|]; first by rewrite for_range_done.
rewrite ltnS => le step; rewrite for_range_last //.
apply: (step); first by rewrite le ltnSn.
by apply: IH => // i t /andP[li ih]; apply: step; rewrite li ltnW.
Qed.

Lemma eq_for_range lo hi body1 body2 s :
  (forall i t, lo <= i < hi -> body1 i t = body2 i t) ->
  for_range lo hi body1 s = for_range lo hi body2 s.
Proof.
move=> eqb; case: (leqP lo hi) => [le|/ltnW le]; last by rewrite !for_range_done.
elim: hi le eqb => [|hi IH].
  by rewrite leqn0 => /eqP <- _; rewrite !for_range_done.
rewrite leq_eqVlt => /orP[/eqP <- _|]; first by rewrite !for_range_done.
rewrite ltnS => le eqb; rewrite !for_range_last //.
rewrite (IH le); first by move=> i t /andP[li ih]; apply: eqb; rewrite li ltnW.
by apply: eqb; rewrite le ltnSn.
Qed.

End Loops.

(** ** Buffers *)

Section Buffers.

Variable A : Arith.
Implicit Types (b : seq A) (m : Matrix A).

Lemma size_wr b k v : k < size b -> size (wr b k v) = size b.
Proof. by move=> lt; rewrite /wr size_set_nth; apply/maxn_idPr. Qed.

Lemma rd_wr b k v j : rd (wr b k v) j = if j == k then v else rd b j.
Proof. by rewrite /rd /wr nth_set_nth. Qed.

Lemma rd_nseq n k : rd (nseq n (zero A)) k = zero A.
Proof. by rewrite /rd nth_nseq; case: ifP. Qed.

Lemma rd_take n b k : k < n -> rd (take n b) k = rd b k.
Proof. by move=> lt; rewrite /rd nth_take. Qed.

(** Row-major indexing: [(r, c)] is recovered from [r * w + c]. *)
Lemma cell_lt n w r c : r < n -> c < w -> r * w + c < n * w.
Proof.
move=> rn cw; apply: (@leq_trans (r.+1 * w)); last by rewrite leq_mul2r rn orbT.
by rewrite mulSn addnC ltn_add2r.
Qed.

Lemma cell_inj w r c r' c' :
  c < w -> c' < w -> (r * w + c == r' * w + c') = (r == r') && (c == c').
Proof.
move=> cw cw'; apply/eqP/andP => [e|[/eqP -> /eqP ->] //].
have wgt : 0 < w by apply: leq_ltn_trans cw.
have := congr1 (fun k => k %/ w) e; rewrite !divnMDl // !divn_small // !addn0.
by move=> er; move: e; rewrite er => /addnI ->.
Qed.

Lemma extensional_buffers b1 b2 :
  size b1 = size b2 -> (forall k, k < size b1 -> rd b1 k = rd b2 k) -> b1 = b2.
Proof. by move=> es er; apply: (@eq_from_nth _ (zero A)). Qed.

End Buffers.

(** ** Facts of binary64 arithmetic *)

Lemma SFadd_opp prec emax (x y : spec_float) :
  SFadd prec emax x (SFopp y) = SFsub prec emax x y.
Proof.
case: x => [sx|sx| |sx mx ex]; case: y => [sy|sy| |sy my ey] //=;
  by case: sx; case: sy.
Qed.

Lemma float_add_opp (x y : float) :
  PrimFloat.add x (PrimFloat.opp y) = PrimFloat.sub x y.
Proof.
apply: Prim2SF_inj.
by rewrite add_spec sub_spec opp_spec /SF64add /SF64sub SFadd_opp.
Qed.

Lemma SFltb_irrefl (x : spec_float) : SFltb x x = false.
Proof.
rewrite /SFltb /SFcompare; case: x => [s|s| |s m e] //; try by case: s.
rewrite Z.compare_refl -[Pos.compare_cont Eq m m]/(Pos.compare m m).
by rewrite Pos.compare_refl; case: s.
Qed.

Lemma SFltb_trans (x y z : spec_float) : SFltb x y -> SFltb y z -> SFltb x z.
Proof.
rewrite /SFltb /SFcompare.
case: x => [sx|sx| |sx mx ex]; case: y => [sy|sy| |sy my ey];
  case: z => [sz|sz| |sz mz ez] //;
  try (by case: sx; case: sy; case: sz); try (by case: sx; case: sy);
  try (by case: sx; case: sz); try (by case: sy; case: sz).
rewrite -![Pos.compare_cont Eq _ _]/(Pos.compare _ _).
case: sx; case: sy; case: sz => //;
  case: (Z.compare_spec ex ey) => // exy; case: (Z.compare_spec ey ez) => // eyz;
  case: (Z.compare_spec ex ez) => // exz; try lia;
  case: (Pos.compare_spec mx my) => // mxy; case: (Pos.compare_spec my mz) => // myz;
  case: (Pos.compare_spec mx mz) => // mxz; try lia.
Qed.

Lemma float_ltb_irrefl (x : float) : PrimFloat.ltb x x = false.
Proof. by rewrite ltb_spec SFltb_irrefl. Qed.

Lemma float_ltb_trans (x y z : float) :
  PrimFloat.ltb x y -> PrimFloat.ltb y z -> PrimFloat.ltb x z.
Proof. rewrite !ltb_spec; exact: SFltb_trans. Qed.

(** ** Elementwise operations *)

Section AddSub.

Variable A : Arith.

Lemma add_sub_fill (g : nat -> A) n :
  let: r := for_range 0 n (fun i cd => wr cd i (g i)) (nseq n (zero A)) in
  size r = n /\ forall k, k < n -> rd r k = g k.
Proof.
pose P i (cd : seq A) :=
  size cd = n /\ forall k, rd cd k = if k < i then g k else zero A.
have [] : P n (for_range 0 n (fun i cd => wr cd i (g i)) (nseq n (zero A))).
  apply: for_range_inv => //; first by split=> [|k]; rewrite ?size_nseq ?rd_nseq.
  move=> i t /andP[_ lt] [st rt]; split=> [|k]; first by rewrite size_wr ?st.
  rewrite rd_wr ltnS leq_eqVlt rt; case: eqP => [->|//].
  by rewrite ltnn.
by move=> sz rr; split=> // k lt; rewrite rr lt.
Qed.

End AddSub.

(** C5. [matrix_add_sub] returns NULL unless both shapes agree; otherwise it
    returns a new matrix of the shape of [a] whose entry [(i, j)] is
    [a[i][j] + b[i][j]] when [subtract] is false (zero) and
    [a[i][j] - b[i][j]] when it is true (non-zero). *)
Theorem add_sub_entrywise (a b : Matrix binary64) (subtract : int) :
  ((rows a != rows b) || (cols a != cols b) ->
     matrix_add_sub (Some a) (Some b) subtract = None) /\
  ((rows a == rows b) && (cols a == cols b) ->
     exists c : Matrix binary64,
       [/\ matrix_add_sub (Some a) (Some b) subtract = Some c,
           rows c = rows a, cols c = cols a, well_formed c &
           forall i j, i < rows a -> j < cols a ->
             matrix_get c i j =
               if subtract != 0
               then PrimFloat.sub (matrix_get a i j) (matrix_get b i j)
               else PrimFloat.add (matrix_get a i j) (matrix_get b i j)]).
Proof.
split=> [ne|eqs]; first by rewrite /matrix_add_sub ne.
have -> : matrix_add_sub (Some a) (Some b) subtract =
  Some (mkMatrix (rows a) (cols a)
    (for_range 0 (rows a * cols a)
       (fun i cd =>
          wr cd i (add (rd (data a) i)
                       (if subtract != 0 then opp (rd (data b) i)
                        else rd (data b) i)))
       (nseq (rows a * cols a) (zero binary64)))).
  rewrite /matrix_add_sub; case/andP: eqs => /eqP er /eqP ec.
  by rewrite -er -ec !eqxx.
pose g i := add (rd (data a) i)
  (if subtract != 0 then opp (rd (data b) i) else rd (data b) i).
have [sz vals] := add_sub_fill g (rows a * cols a).
eexists; split; first by []; rewrite //= => i j ir jc.
rewrite /matrix_get /= vals ?cell_lt // /g.
case/andP: eqs => _ /eqP <-.
by case: ifP => _ //=; rewrite float_add_opp.
Qed.

Lemma add_sub_entrywise_witness :
  exists c : Matrix binary64,
    matrix_add_sub (Some add_sub_a) (Some add_sub_b) 1 = Some c /\
    matrix_get c 1 0 = (-5)%float.
Proof.
have [_ /(_ isT) [c [ec _ _ _ /(_ 1 0 isT isT) e]]] :=
  add_sub_entrywise add_sub_a add_sub_b 1.
by exists c.
Defined.

(** C10. The four core operations accept an absent (NULL) matrix: they
    return NULL (0.0 for the determinant, with no diagnostic) straight
    from the initial null test, before any field of the argument is read. *)
Theorem null_arguments (A : Arith) (m : option (Matrix A)) (subtract : int) :
  [/\ matrix_add_sub None m subtract = None,
      matrix_add_sub m None subtract = None,
      matrix_multiply None m = None,
      matrix_multiply m None = None &
      matrix_inverse (A := A) None = (None, [::]) /\
      matrix_determinant (A := A) None = (zero A, [::])].
Proof. by split=> //; case: m. Qed.

(** ** Loops with an early exit *)

Lemma for_exit_cat (S R : Type) (body : nat -> S -> R + S) idx1 idx2 s :
  for_exit body (idx1 ++ idx2) s =
    match for_exit body idx1 s with
    | inl r => inl r
    | inr s' => for_exit body idx2 s'
    end.
Proof. by elim: idx1 s => [|i idx1 IH] s //=; case: (body i s). Qed.

Lemma iota_split i n : i < n -> iota 0 n = iota 0 i ++ i :: iota i.+1 (n - i.+1).
Proof.
by move=> lt; rewrite -{1}(subnKC (ltnW lt)) iotaD add0n -subSS subSn.
Qed.

(** ** Pivot search *)

Section Pivot.

Variable A : Arith.
Implicit Types (M : seq A).

Lemma find_pivot_range w n i M : i < n -> i <= find_pivot w n i M < n.
Proof.
move=> lt; rewrite /find_pivot.
pose P (r piv : nat) := i <= piv < maxn r i.+1.
have : P n (for_range i n
    (fun r piv => if ltb (fabs (rd M (piv * w + i))) (fabs (rd M (r * w + i)))
                  then r else piv) i).
  apply: (@for_range_inv _ P); first exact: ltnW.
    by rewrite /P leqnn /= leq_max ltnSn orbT.
  move=> r piv /andP[ir rn] /andP[ip pm]; rewrite /P.
  have -> : maxn r.+1 i.+1 = r.+1 by apply/maxn_idPl.
  case: ifP => _; first by rewrite ir ltnSn.
  by rewrite ip /=; apply: leq_trans pm _; rewrite geq_max ltnS ir leqnSn.
by rewrite /P; move/maxn_idPl: (lt) => ->.
Qed.

Hypothesis ltb_irrefl : forall x : A, ltb x x = false.
Hypothesis ltb_trans : forall x y z : A, ltb x y -> ltb y z -> ltb x z.

(** The row found has an entry of maximal magnitude in its column. *)
Lemma find_pivot_row w n i M : i < n -> pivot_row w n i M (find_pivot w n i M).
Proof.
move=> lt; split; first exact: find_pivot_range.
pose mag r := fabs (rd M (r * w + i)).
pose P (k piv : nat) := forall r, i <= r < k -> ltb (mag piv) (mag r) = false.
rewrite /find_pivot; apply: (@for_range_inv _ P); first exact: ltnW.
  by move=> r; case: ltngtP.
move=> k piv /andP[ik kn] IH r; rewrite ltnS => /andP[ir rk].
rewrite -/(mag piv) -/(mag k).
case: ifP => [lt_pk|nlt_pk].
  move: rk; rewrite leq_eqVlt => /orP[/eqP ->|rk]; first exact: ltb_irrefl.
  apply/negbTE/negP => lt_kr.
  by have := ltb_trans lt_pk lt_kr; rewrite IH // ir.
move: rk; rewrite leq_eqVlt => /orP[/eqP -> //|rk].
by rewrite IH // ir.
Qed.

End Pivot.

Lemma sign_of_cases k : sign_of k = 1%R \/ sign_of k = (-1)%R.
Proof. by rewrite /sign_of -signr_odd; case: (odd k); [right | left]. Qed.

(** The specification's scenarios: [[4,3],[6,3]] has determinant -6 (one
    swap, pivots 6 and 1); the singular [[1,2],[2,4]] yields a zero, which
    carries the sign of the swap that preceded the stop. *)
Example determinant_4_3_6_3 :
  (matrix_determinant (Some det_example)).1 = (-6)%float.
Proof. by []. Qed.

Example determinant_1_2_2_4 :
  (matrix_determinant (Some (M64 2 2 [:: 1; 2; 2; 4]%float))).1 = (-0)%float.
Proof. by []. Qed.

(** ** Failure paths of the inverse *)

Section InverseFailure.

Variable A : Arith.

Lemma inverse_stops (a : Matrix A) (i : nat) (E : seq A) :
  rows a = cols a -> i < rows a ->
  for_exit (inv_step (rows a)) (iota 0 i) (inv_init a) = inr E ->
  (forall r, i <= r < rows a ->
     ltb (fabs (rd E (r * (2 * rows a) + i))) (EPS A)) ->
  matrix_inverse (Some a) = (None, [::]).
Proof.
move=> sq lt reach small; rewrite /matrix_inverse sq eqxx /= -sq.
rewrite (iota_split lt) for_exit_cat reach /= /inv_step.
by rewrite small // find_pivot_range.
Qed.

End InverseFailure.

(** C3. If the elimination of a square matrix reaches a column in which
    every remaining candidate pivot (rows [i .. n-1]) has magnitude below
    [EPS], [matrix_inverse] returns NULL: no result matrix is produced, and
    nothing is written to stderr. *)
Theorem inverse_singular (a : Matrix binary64) (i : nat) (E : seq float) :
  rows a = cols a -> i < rows a ->
  for_exit (inv_step (rows a)) (iota 0 i) (inv_init a) = inr E ->
  (forall r, i <= r < rows a ->
     PrimFloat.ltb (PrimFloat.abs (rd (A := binary64) E (r * (2 * rows a) + i))) EPS64) ->
  matrix_inverse (Some a) = (None, [::]).
Proof. exact: inverse_stops. Qed.

Lemma inverse_singular_witness :
  matrix_inverse (Some singular_example) = (None, [::]).
Proof.
apply: (@inverse_singular singular_example 1
          [:: 1; 2; 0; 0.5; 0; 0; 1; -0.5]%float) => //.
by case=> [|[|r]].
Defined.

(** ** Non-square input *)

(** C4 as stated fails: the value [matrix_determinant] returns for a
    non-square matrix is the 0.0 it also returns for a singular square one. *)
Lemma not_square_value_collides :
  ~ (forall a b : Matrix binary64,
       rows a != cols a -> rows b == cols b ->
       (matrix_determinant (Some a)).1 <> (matrix_determinant (Some b)).1).
Proof.
move/(_ (M64 1 2 [:: 1; 2]%float) (M64 1 1 [:: 0]%float) isT isT).
by apply.
Qed.

(** C4, amended. On a matrix with [rows != cols] both routines take the
    guard at their head: [matrix_determinant] returns the sentinel 0.0 and
    [matrix_inverse] returns NULL, each after writing its own one-line
    diagnostic to stderr; on a square matrix neither writes anything.  The
    diagnostic, not the returned value, tells the failure apart. *)
Theorem not_square_diagnostic (A : Arith) (a : Matrix A) :
  (rows a != cols a ->
     matrix_determinant (Some a) =
       (zero A, [:: "Determinant: matrix is not square"%string]) /\
     matrix_inverse (Some a) =
       (None, [:: "Inverse: matrix is not square"%string])) /\
  (rows a == cols a ->
     (matrix_determinant (Some a)).2 = [::] /\ (matrix_inverse (Some a)).2 = [::]).
Proof.
split=> [ne|sq]; rewrite /matrix_determinant /matrix_inverse.
  by rewrite (negbTE ne).
by rewrite sq /=; case: (for_exit _ _ _).
Qed.

Lemma not_square_diagnostic_witness :
  matrix_determinant (Some (M64 1 2 [:: 1; 2]%float)) =
    (0%float, [:: "Determinant: matrix is not square"%string]) /\
  matrix_inverse (Some (M64 1 2 [:: 1; 2]%float)) =
    (None, [:: "Inverse: matrix is not square"%string]).
Proof.
exact: (proj1 (@not_square_diagnostic binary64 (M64 1 2 [:: 1; 2]%float)) isT).
Defined.

(** ** Write loops over a row-major buffer *)

Section WriteLoops.

Variable A : Arith.
Variables (n w : nat).
Implicit Types (b : seq A).
Local Notation agrees := (agrees n w).

Lemma agrees_self b : size b = n * w -> agrees b (fun r c => rd b (r * w + c)).
Proof. by []. Qed.

Lemma agrees_ext b f1 f2 :
  (forall r c, r < n -> c < w -> f1 r c = f2 r c) -> agrees b f1 -> agrees b f2.
Proof. by move=> e [sz v]; split=> // r c rn cw; rewrite v ?e. Qed.

Lemma agrees_wr b f r c v :
  r < n -> c < w -> agrees b f ->
  agrees (wr b (r * w + c) v)
         (fun r' c' => if (r' == r) && (c' == c) then v else f r' c').
Proof.
move=> rn cw [sz vals]; split; first by rewrite size_wr // sz cell_lt.
by move=> r' c' rn' cw'; rewrite rd_wr cell_inj // vals.
Qed.

Lemma agrees_eq b1 b2 f : agrees b1 f -> agrees b2 f -> b1 = b2.
Proof.
move=> [s1 v1] [s2 v2]; apply: (@extensional_buffers A); first by rewrite s1 s2.
rewrite s1 => k lt.
have wgt : 0 < w by case: (w) lt => //; rewrite muln0.
have kr : k %/ w < n by rewrite ltn_divLR // mulnC.
by rewrite (divn_eq k w) v1 ?v2 // ltn_mod.
Qed.

(** Inner loop: iteration [c] writes cell [(r, c)]. *)
Lemma cell_loop r lo hi (g : nat -> seq A -> A) (h : nat -> A) f b0 :
  r < n -> hi <= w -> lo <= hi -> agrees b0 f ->
  (forall c b, lo <= c < hi ->
     agrees b (fun r' c' => if (r' == r) && (lo <= c' < c) then h c' else f r' c') ->
     g c b = h c) ->
  agrees (for_range lo hi (fun c b => wr b (r * w + c) (g c b)) b0)
         (fun r' c' => if (r' == r) && (lo <= c' < hi) then h c' else f r' c').
Proof.
move=> rn hw le ag0 gh.
pose P c b :=
  agrees b (fun r' c' => if (r' == r) && (lo <= c' < c) then h c' else f r' c').
apply: (@for_range_inv _ P) => //.
  by apply: agrees_ext ag0 => r' c' _ _; rewrite ltnNge andbC; case: leqP; rewrite ?andbF.
move=> c b /andP[lc ch] Pb; rewrite (gh c b) ?lc //.
apply: agrees_ext (agrees_wr (h c) rn (leq_trans ch hw) Pb) => r' c' _ _.
rewrite ltnS [c' <= c]leq_eqVlt; case: (r' == r) => //=.
by case: eqP => [->|_] //=; rewrite lc.
Qed.

(** Outer loop: iteration [r] rewrites row [r] and nothing else. *)
Lemma row_loop lo hi (body : nat -> seq A -> seq A) (h : nat -> nat -> A) f b0 :
  hi <= n -> lo <= hi -> agrees b0 f ->
  (forall r b, lo <= r < hi ->
     agrees b (fun r' c' => if lo <= r' < r then h r' c' else f r' c') ->
     agrees (body r b)
       (fun r' c' => if lo <= r' < r.+1 then h r' c' else f r' c')) ->
  agrees (for_range lo hi body b0)
         (fun r' c' => if lo <= r' < hi then h r' c' else f r' c').
Proof.
move=> hn le ag0 step.
pose P r b := agrees b (fun r' c' => if lo <= r' < r then h r' c' else f r' c').
apply: (@for_range_inv _ P) => //.
by apply: agrees_ext ag0 => r' c' _ _; rewrite ltnNge andbC; case: leqP.
Qed.

End WriteLoops.

(** ** What each row operation does to the table *)

Section RowOperations.

Variable A : Arith.
Implicit Types (b E : seq A) (f : nat -> nat -> A).

Lemma swap_rows_spec n w len i p b f :
  i < n -> p < n -> len <= w -> agrees n w b f ->
  agrees n w (swap_rows w len i p b)
    (fun r c => if c < len
                then (if r == i then f p c else if r == p then f i c else f r c)
                else f r c).
Proof.
move=> lti ltp lw ag.
pose P k b := agrees n w b
  (fun r c => if c < k
              then (if r == i then f p c else if r == p then f i c else f r c)
              else f r c).
apply: (@for_range_inv _ P) => // c t /andP[_ cl] Pt.
have cw : c < w := leq_trans cl lw.
have [_ vt] := Pt.
rewrite /= !vt // ltnn.
have := agrees_wr (f i c) ltp cw (agrees_wr (f p c) lti cw Pt).
apply: agrees_ext => r' c' _ _.
rewrite ltnS [c' <= c]leq_eqVlt.
case: (c' =P c) => [->|_] /=; rewrite ?andbT ?andbF ?ltnn //.
by case: (r' =P p) => [->|//]; case: eqP => [->|].
Qed.


Lemma inv_init_spec (a : Matrix A) :
  agrees (rows a) (2 * rows a) (inv_init a)
    (fun r c => if c < rows a then matrix_get a r c
                else if r == c - rows a then one A else zero A).
Proof.
rewrite /inv_init; set n := rows a; set w := 2 * n.
have nw j : j < n -> n + j < w by move=> jn; rewrite /w mul2n -addnn ltn_add2l.
have wn j : j < n -> j < w by move=> jn; rewrite /w mul2n -addnn ltn_addl.
pose h r c := if c < n then matrix_get a r c
              else if r == c - n then one A else zero A.
pose z (r c : nat) := zero A.
have ag0 : agrees n w (nseq (n * 2 * n) (zero A)) z.
  by split=> [|r c _ _]; rewrite ?size_nseq ?rd_nseq // /w mulnA.
have := @row_loop A n w 0 n _ h z _ (leqnn n) (leq0n n) ag0.
move=> H; apply: agrees_ext (H _ _) => [r c rn cw|r b /andP[_ rn] agb].
  by rewrite /= rn.
pose P j b := agrees n w b
  (fun r' c' => if r' == r
       then (if (c' < j) || (n <= c' < n + j) then h r c' else zero A)
       else if r' < r then h r' c' else zero A).
have : P n (for_range 0 n
  (fun j E =>
     let E0 := wr E (r * w + j) (matrix_get a r j) in
     wr E0 (r * w + (n + j)) (if r == j then one A else zero A)) b).
  apply: (@for_range_inv _ P) => //.
    apply: agrees_ext agb => r' c' _ _; rewrite /= addn0.
    case: (r' =P r) => [->|//]; rewrite ltnn /z.
    by rewrite ltnNge andbC; case: leqP.
  move=> j t /andP[_ jn] Pt.
  have := agrees_wr (if r == j then one A else zero A) rn (nw _ jn)
            (agrees_wr (matrix_get a r j) rn (wn _ jn) Pt).
  apply: agrees_ext => r' c' _ cw'; case: (r' == r) => //=.
  case: (c' =P n + j) => [->|/eqP/negbTE ne1].
    by rewrite /h addnS !ltnS leq_addr leqnn /= orbT ltnNge leq_addr /= addKn.
  case: (c' =P j) => [->|/eqP/negbTE ne2]; first by rewrite /h ltnS leqnn /= jn.
  by rewrite addnS !ltnS [c' <= j]leq_eqVlt [c' <= n + j]leq_eqVlt ne1 ne2.
apply: agrees_ext => r' c' rn' cw'; rewrite ltnS [r' <= r]leq_eqVlt.
case: (r' =P r) => [->|_] //=.
by case: (ltnP c' n) => //= nc; rewrite addnn -mul2n cw'.
Qed.

Lemma inv_normalize_spec n i E f :
  i < n -> agrees n (2 * n) E f ->
  agrees n (2 * n) (inv_normalize n i E)
    (fun r c => if r == i then div (f i c) (f i i) else f r c).
Proof.
move=> lti ag; have [_ vE] := ag.
have iw : i < 2 * n by rewrite mul2n -addnn ltn_addl.
rewrite /inv_normalize vE //.
have := @cell_loop A n (2 * n) i 0 (2 * n)
  (fun c b => div (rd b (i * (2 * n) + c)) (f i i))
  (fun c => div (f i c) (f i i)) f E lti (leqnn _) (leq0n _) ag.
move=> H; apply: agrees_ext (H _) => [r c _ cw|c b /andP[_ cw] [_ vb]].
  by rewrite /= cw andbT.
by rewrite vb // eqxx ltnn.
Qed.

Lemma inv_eliminate_spec n i E f :
  i < n -> agrees n (2 * n) E f ->
  agrees n (2 * n) (inv_eliminate n i E) (inv_eliminated i f).
Proof.
move=> lti ag; set w := 2 * n.
have iw : i < w by rewrite /w mul2n -addnn ltn_addl.
have := @row_loop A n w 0 n _ (inv_eliminated i f) f E (leqnn n) (leq0n n) ag.
move=> H; apply: agrees_ext (H _ _) => [r c rn _|r b /andP[_ rn] agb].
  by rewrite /= rn.
have [_ vb] := agb.
case: (r =P i) => [ri|/eqP ri].
  apply: agrees_ext agb => r' c' _ _; rewrite /= ltnS [r' <= r]leq_eqVlt.
  by case: (r' =P r) => [->|//] /=; rewrite ltnn /inv_eliminated ri eqxx.
rewrite vb // ltnn /=.
case small: (ltb _ _).
  apply: agrees_ext agb => r' c' _ _; rewrite /= ltnS [r' <= r]leq_eqVlt.
  case: (r' =P r) => [->|//] /=.
  by rewrite ltnn /inv_eliminated (negbTE ri) small.
have := @cell_loop A n w r 0 w
  (fun c b => sub (rd b (r * w + c)) (mul (f r i) (rd b (i * w + c))))
  (fun c => sub (f r c) (mul (f r i) (f i c))) _ b rn (leqnn _) (leq0n _) agb.
move=> H'; apply: agrees_ext (H' _) => [r' c' _ cw'|c b' /andP[_ cw] [_ vb']].
  rewrite /= cw' andbT ltnS [r' <= r]leq_eqVlt.
  case: (r' =P r) => [->|//]; rewrite /= /inv_eliminated (negbTE ri) small //.
rewrite !vb' // eqxx ltnn /= ltnn eq_sym (negbTE ri) /=.
by case: ifP => // _; rewrite /inv_eliminated eqxx.
Qed.

Lemma det_eliminate_spec n i pivot mat f :
  i < n -> agrees n n mat f ->
  agrees n n (det_eliminate n i pivot mat) (det_eliminated i pivot f).
Proof.
move=> lti ag.
pose h r c := if i <= c then sub (f r c) (mul (div (f r i) pivot) (f i c))
              else f r c.
have := @row_loop A n n i.+1 n _ h f mat (leqnn n) lti ag.
move=> H; apply: agrees_ext (H _ _) => [r c rn _|r b /andP[ir rn] agb].
  by rewrite /= rn andbT /det_eliminated /h; case: (i < r).
have [_ vb] := agb.
rewrite vb // ltnn andbF.
have := @cell_loop A n n r i n
  (fun c b => sub (rd b (r * n + c)) (mul (div (f r i) pivot) (rd b (i * n + c))))
  (fun c => sub (f r c) (mul (div (f r i) pivot) (f i c))) _ b rn (leqnn _)
  (ltnW lti) agb.
move=> H'; apply: agrees_ext (H' _) => [r' c' _ cw'|c b' /andP[ic cw] [_ vb']].
  rewrite /= cw' andbT ltnS [r' <= r]leq_eqVlt.
  case: (r' =P r) => [->|//] /=.
  by rewrite ir ltnn andbF /h; case: (i <= c').
by rewrite !vb' // eqxx ltnn andbF /= ltnn andbF andbF ltnn.
Qed.

Lemma inv_extract_spec n E f :
  agrees n (2 * n) E f ->
  [/\ rows (inv_extract n E) = n, cols (inv_extract n E) = n &
      agrees n n (data (inv_extract n E)) (fun r c => f r (n + c))].
Proof.
move=> [_ vE]; split=> //=.
pose z (r c : nat) := zero A.
have ag0 : agrees n n (nseq (n * n) (zero A)) z.
  by split=> [|r c _ _]; rewrite ?size_nseq ?rd_nseq.
have := @row_loop A n n 0 n _ (fun r c => f r (n + c)) z _ (leqnn n) (leq0n n) ag0.
move=> H; apply: agrees_ext (H _ _) => [r c rn _|r b /andP[_ rn] agb].
  by rewrite /= rn.
have := @cell_loop A n n r 0 n
  (fun c b => rd E (r * (2 * n) + (n + c))) (fun c => f r (n + c)) _ b rn
  (leqnn _) (leq0n _) agb.
move=> H'; apply: agrees_ext (H' _) => [r' c' _ cw'|c b' /andP[_ cw] _].
  rewrite /= cw' andbT ltnS [r' <= r]leq_eqVlt.
  by case: (r' =P r) => [->|//].
by rewrite vE // mul2n -addnn ltn_add2l.
Qed.

End RowOperations.

(** ** The identity matrix *)

Lemma for_exit_fixed (S R : Type) (body : nat -> S -> R + S) idx s :
  (forall i, i \in idx -> body i s = inr s) -> for_exit body idx s = inr s.
Proof.
elim: idx => [|i idx IH] //= fx; rewrite fx ?mem_head // IH // => j jin.
by rewrite fx // in_cons jin orbT.
Qed.

Section Identity.

Variable A : Arith.

Hypothesis lt_1_1 : ltb (fabs (one A)) (fabs (one A)) = false.
Hypothesis lt_1_0 : ltb (fabs (one A)) (fabs (zero A)) = false.
Hypothesis lt_1_eps : ltb (fabs (one A)) (EPS A) = false.
Hypothesis lt_0_eps : ltb (fabs (zero A)) (EPS A) = true.
Hypothesis mul_1_1 : mul (one A) (one A) = one A.
Hypothesis mul_0_0 : mul (zero A) (zero A) = zero A.
Hypothesis mul_0_1 : mul (zero A) (one A) = zero A.
Hypothesis div_0_1 : div (zero A) (one A) = zero A.
Hypothesis div_1_1 : div (one A) (one A) = one A.
Hypothesis sub_0_0 : sub (zero A) (zero A) = zero A.
Hypothesis sub_1_0 : sub (one A) (zero A) = one A.
Hypothesis of_int_1 : of_int A 1%R = one A.

Local Notation delta := (@identity_table A).

Lemma identity_agrees n : agrees n n (data (identity_matrix A n)) delta.
Proof.
split=> [|r c rn cn]; first by rewrite size_mkseq.
by rewrite /rd nth_mkseq ?cell_lt // divnMDl ?divn_small ?addn0 ?modnMDl ?modn_small //;
   apply: leq_ltn_trans cn.
Qed.

Lemma find_pivot_identity w n i M (f : nat -> nat -> A) :
  i < n -> i < w -> agrees n w M f -> (forall r, r < n -> f r i = delta r i) ->
  find_pivot w n i M = i.
Proof.
move=> lti ltw [_ vM] fi; rewrite /find_pivot.
apply: (@for_range_inv _ (fun _ piv => piv = i)) => //; first exact: ltnW.
move=> r piv /andP[ir rn] ->; rewrite !vM // !fi // /identity_table eqxx.
by case: eqP => _; rewrite ?lt_1_1 ?lt_1_0.
Qed.

Lemma det_eliminate_identity n i :
  i < n ->
  det_eliminate n i (one A) (data (identity_matrix A n)) = data (identity_matrix A n).
Proof.
move=> lti; apply: (@agrees_eq A n n _ _ delta); last exact: identity_agrees.
apply: agrees_ext (det_eliminate_spec (one A) lti (identity_agrees n)) => r c rn cn.
rewrite /det_eliminated; case: ifP => // /andP[ir ic].
rewrite /identity_table (gtn_eqF ir) div_0_1.
by do 2![case: eqP => _]; rewrite ?mul_0_1 ?mul_0_0 ?sub_1_0 ?sub_0_0.
Qed.

Lemma det_step_identity n i sign :
  i < n ->
  det_step n i (DetState (data (identity_matrix A n)) (one A) sign) =
    inr (DetState (data (identity_matrix A n)) (one A) sign).
Proof.
move=> lti; have ag := identity_agrees n; have [_ vI] := ag.
rewrite /det_step /= (find_pivot_identity lti lti ag) // eqxx /=.
by rewrite vI // /identity_table eqxx lt_1_eps mul_1_1 det_eliminate_identity.
Qed.

Lemma determinant_identity n :
  matrix_determinant (Some (identity_matrix A n)) = (one A, [::]).
Proof.
rewrite /matrix_determinant /= eqxx /det_loop /det_init /=.
have -> : take (n * n) (mkseq (fun j => delta (j %/ n) (j %% n)) (n * n)) =
          data (identity_matrix A n) by rewrite take_oversize ?size_mkseq.
set st := DetState _ _ _.
have -> : for_exit (det_step n) (iota 0 n) st = inr st.
  apply: for_exit_fixed => i; rewrite mem_iota add0n => /andP[_ lti].
  exact: det_step_identity.
by rewrite /= of_int_1 mul_1_1.
Qed.

Local Notation aug := (@augmented_identity A).

Lemma inv_init_identity n :
  agrees n (2 * n) (inv_init (identity_matrix A n)) (aug n).
Proof.
apply: agrees_ext (inv_init_spec (identity_matrix A n)) => r c rn cw /=.
rewrite /aug; case: ltnP => // cn.
by have [_ vI] := identity_agrees n; rewrite /matrix_get /= vI.
Qed.

Lemma inv_step_identity n i E :
  i < n -> agrees n (2 * n) E (aug n) -> inv_step n i E = inr E.
Proof.
move=> lti ag; have [_ vE] := ag.
have iw : i < 2 * n by rewrite mul2n -addnn ltn_addl.
have aug_i r : aug n r i = delta r i by rewrite /aug lti.
rewrite /inv_step (find_pivot_identity lti iw ag) // eqxx /=.
rewrite vE // aug_i /identity_table eqxx lt_1_eps; congr inr.
apply: (@agrees_eq A n (2 * n) _ _ (aug n)) => //.
have agn : agrees n (2 * n) (inv_normalize n i E) (aug n).
  apply: agrees_ext (inv_normalize_spec lti ag) => r c rn cw.
  case: (r =P i) => [->|//]; rewrite aug_i /identity_table eqxx /aug.
  by case: ifP => _; rewrite /identity_table; case: (i == _); rewrite ?div_1_1 ?div_0_1.
apply: agrees_ext (inv_eliminate_spec lti agn) => r c rn cw.
rewrite /inv_eliminated; case: (r =P i) => // /eqP ri.
by rewrite aug_i /identity_table (negbTE ri) lt_0_eps.
Qed.

Lemma inverse_identity n :
  matrix_inverse (Some (identity_matrix A n)) = (Some (identity_matrix A n), [::]).
Proof.
rewrite /matrix_inverse /= eqxx.
have ag := inv_init_identity n.
have -> : for_exit (inv_step n) (iota 0 n) (inv_init (identity_matrix A n)) =
          inr (inv_init (identity_matrix A n)).
  apply: for_exit_fixed => i; rewrite mem_iota add0n => /andP[_ lti].
  exact: inv_step_identity.
have [/= er ec agx] := inv_extract_spec ag.
congr (Some _, _); rewrite /inv_extract /identity_matrix; congr mkMatrix.
apply: (@agrees_eq A n n _ _ delta); last exact: identity_agrees.
apply: agrees_ext agx => r c rn cn.
by rewrite /aug ltnNge leq_addr /= addKn.
Qed.

End Identity.

(** C6. For every order [n >= 1] the determinant of the [n x n] identity
    matrix is exactly 1.0, and [matrix_inverse] succeeds on it and returns
    the identity matrix itself. *)
Theorem identity_det_inverse (n : nat) :
  0 < n ->
  (matrix_determinant (Some (identity_matrix binary64 n))).1 = 1%float /\
  matrix_inverse (Some (identity_matrix binary64 n)) =
    (Some (identity_matrix binary64 n), [::]).
Proof.
move=> _; split.
  by rewrite (@determinant_identity binary64).
exact: (@inverse_identity binary64).
Qed.

Lemma identity_det_inverse_witness :
  (matrix_determinant (Some (identity_matrix binary64 3))).1 = 1%float /\
  matrix_inverse (Some (identity_matrix binary64 3)) =
    (Some (identity_matrix binary64 3), [::]).
Proof. exact: (@identity_det_inverse 3 isT). Defined.

(** ** The heap outside the working buffers *)

Lemma for_range_keeps (S : Type) (P : S -> Prop) lo hi (body : nat -> S -> S) s :
  P s -> (forall i t, P t -> P (body i t)) -> P (for_range lo hi body s).
Proof.
rewrite /for_range => Ps step.
by elim: (iota _ _) s Ps => [|i idx IH] s Ps //=; apply: IH; apply: step.
Qed.

Lemma for_exit_keeps (S R : Type) (P : S -> Prop) (Q : R -> Prop)
    (body : nat -> S -> R + S) idx s :
  P s ->
  (forall i t, P t -> match body i t with inl r => Q r | inr t' => P t' end) ->
  match for_exit body idx s with inl r => Q r | inr t' => P t' end.
Proof.
move=> Ps step; elim: idx s Ps => [|i idx IH] s Ps //=.
by have := step i s Ps; case: (body i s) => // t'; apply: IH.
Qed.

Section Frame.

Variable A : Arith.
Implicit Types (h : heap A).

Lemma same_except_refl p h : same_except p h h.
Proof. by []. Qed.

Lemma same_except_trans p h1 h2 h3 :
  same_except p h1 h2 -> same_except p h2 h3 -> same_except p h1 h3.
Proof.
by move=> [s12 e12] [s23 e23]; split=> [|q qp]; rewrite ?s23 // e23 // e12.
Qed.

Lemma hwr_same p k v h : same_except p h (hwr h p k v).
Proof.
rewrite /hwr; case e: (nth None h p) => [[r c d|cs]|]; try exact: same_except_refl.
have lt : p < size h by case: ltnP e => // le; rewrite nth_default.
split=> [|q qp]; first by rewrite size_set_nth; apply/maxn_idPr.
by rewrite nth_set_nth /= (negbTE qp).
Qed.

Lemma hfree_same p h : same_except p h (hfree h p).
Proof.
rewrite /hfree; case: ifP => [lt|_]; last exact: same_except_refl.
split=> [|q qp]; first by rewrite size_set_nth; apply/maxn_idPr.
by rewrite nth_set_nth /= (negbTE qp).
Qed.

Lemma loop_same p lo hi (body : nat -> heap A -> heap A) h :
  (forall i t, same_except p t (body i t)) ->
  same_except p h (for_range lo hi body h).
Proof.
move=> step; apply: (@for_range_keeps _ (same_except p h)) => // i t ht.
exact: same_except_trans ht (step i t).
Qed.

Lemma hcopy_same dst src len h : same_except dst h (hcopy dst src len h).
Proof. by apply: loop_same => i t; apply: hwr_same. Qed.

Lemma swap_rows_h_same w len i piv p h :
  same_except p h (swap_rows_h w len i piv p h).
Proof.
apply: loop_same => c t /=.
by apply: same_except_trans; apply: hwr_same.
Qed.

Lemma det_eliminate_h_same n i pivot mat h :
  same_except mat h (det_eliminate_h n i pivot mat h).
Proof. by do 2![apply: loop_same => ? ?]; apply: hwr_same. Qed.

Lemma inv_init_h_same n d E h : same_except E h (inv_init_h n d E h).
Proof.
do 2![apply: loop_same => ? ?] => /=.
by apply: same_except_trans; apply: hwr_same.
Qed.

Lemma inv_normalize_h_same n i E h : same_except E h (inv_normalize_h n i E h).
Proof. by apply: loop_same => ? ?; apply: hwr_same. Qed.

Lemma inv_eliminate_h_same n i E h : same_except E h (inv_eliminate_h n i E h).
Proof.
apply: loop_same => r t; case: (r == i); first exact: same_except_refl.
rewrite /=; case: (ltb _ _); first exact: same_except_refl.
by apply: loop_same => ? ?; apply: hwr_same.
Qed.

Lemma inv_extract_h_same n E dst h : same_except dst h (inv_extract_h n E dst h).
Proof. by do 2![apply: loop_same => ? ?]; apply: hwr_same. Qed.

Lemma old_kept_refl h : old_kept h h.
Proof. by []. Qed.

Lemma old_kept_except p h0 h h' :
  size h0 <= p -> old_kept h0 h -> same_except p h h' -> old_kept h0 h'.
Proof.
move=> le [sz k] [sz' e]; split=> [|q lt]; first by rewrite sz'.
by rewrite e ?k // neq_ltn (leq_trans lt le).
Qed.

Lemma halloc_kept h0 h o : old_kept h0 h -> old_kept h0 (halloc h o).1.
Proof.
move=> [sz k]; split=> [|q lt] /=; first by rewrite size_rcons leqW.
by rewrite nth_rcons (leq_trans lt sz) k.
Qed.

Lemma det_step_h_same n mat i h det sign :
  match det_step_h n mat i (h, det, sign) with
  | inl st | inr st => same_except mat h st.1.1
  end.
Proof.
rewrite /det_step_h; case: ifP => _ /=; first exact: same_except_refl.
apply: same_except_trans (det_eliminate_h_same _ _ _ _ _).
by case: ifP => _; [apply: swap_rows_h_same | apply: same_except_refl].
Qed.

Lemma determinant_h_kept h a : old_kept h (matrix_determinant_h h a).1.1.
Proof.
case: a => [pa|] /=; last exact: old_kept_refl.
case: (nth None h pa) => [[r c d|cs]|]; try exact: old_kept_refl.
case: ifP => _; first exact: old_kept_refl.
set h1 := rcons h _; set st0 := (hcopy _ _ _ _, _, _).
have k1 : old_kept h h1 by apply: (halloc_kept _ (old_kept_refl h)).
pose P (st : heap A * A * int) := same_except (size h) h1 st.1.1.
have : match for_exit (det_step_h r (size h)) (iota 0 r) st0 return Prop with
       | inl st | inr st => P st end.
  have := (@for_exit_keeps _ _ P P (det_step_h r (size h)) (iota 0 r) st0).
  apply; first exact: hcopy_same.
  move=> i [[t det] sign] Pt; have := det_step_h_same r (size h) i t det sign.
  by case: (det_step_h _ _ _ _) => st; apply: same_except_trans.
case: (for_exit _ _ _) => [[[t det] sign]|[[t det] sign]] /= Pt;
  apply: (old_kept_except (leqnn _) k1);
  exact: same_except_trans Pt (hfree_same _ _).
Qed.

Lemma inv_step_h_same n E i h :
  match inv_step_h n E i h with
  | inl t | inr t => same_except E h t
  end.
Proof.
rewrite /inv_step_h; case: ifP => _; first exact: hfree_same.
apply: same_except_trans (inv_eliminate_h_same _ _ _ _).
apply: same_except_trans (inv_normalize_h_same _ _ _ _).
by case: ifP => _; [apply: swap_rows_h_same | apply: same_except_refl].
Qed.

Lemma matrix_create_h_kept h0 h r c :
  old_kept h0 h -> old_kept h0 (matrix_create_h r c h).1.
Proof.
move=> k; rewrite /matrix_create_h /=.
have k2 := halloc_kept (Block (nseq (r * c) (zero A)))
             (halloc_kept (Struct A r c 0) k).
have [sz _] := k; apply: old_kept_except k2 _; first exact: sz.
split=> [|q qp]; last by rewrite nth_set_nth /= (negbTE qp).
by rewrite size_set_nth /= !size_rcons; apply/maxn_idPr; rewrite ltnS leqnSn.
Qed.

Lemma inverse_h_kept h a : old_kept h (matrix_inverse_h h a).1.1.
Proof.
case: a => [pa|] /=; last exact: old_kept_refl.
case: (nth None h pa) => [[r c d|cs]|]; try exact: old_kept_refl.
case: ifP => _; first exact: old_kept_refl.
set h1 := rcons h _.
have k1 : old_kept h h1 by apply: (halloc_kept _ (old_kept_refl h)).
have : match for_exit (inv_step_h r (size h)) (iota 0 r)
               (inv_init_h r d (size h) h1) return Prop with
       | inl t | inr t => same_except (size h) h1 t end.
  have := (@for_exit_keeps _ _ (same_except (size h) h1) (same_except (size h) h1)
            (inv_step_h r (size h)) (iota 0 r)).
  apply; first exact: inv_init_h_same.
  move=> i t Pt; have := inv_step_h_same r (size h) i t.
  by case: (inv_step_h _ _ _ _) => st; apply: same_except_trans.
case: (for_exit _ _ _) => t /= Pt; first exact: old_kept_except k1 Pt.
have kt : old_kept h t by apply: old_kept_except k1 Pt.
have := matrix_create_h_kept r r kt; rewrite /matrix_create_h /= size_rcons => kt'.
rewrite nth_set_nth /= eqxx ?size_rcons.
apply: (old_kept_except (leqnn _) _ (@hfree_same _ _)).
apply: (old_kept_except _ kt' (@inv_extract_h_same _ _ _ _)).
by have [-> _] := Pt; rewrite size_rcons leqW.
Qed.

End Frame.

(** C9. [matrix_determinant] and [matrix_inverse] leave their square
    argument as it was: after the call, on the successful and on the
    failing paths alike, the struct at the argument's address has the
    same rows, cols and data address, and the data block has the same
    entries.  All stores go to blocks allocated during the call. *)
Theorem input_unchanged (A : Arith) (h : heap A) (pa n d : nat) (cs : seq A) :
  nth None h pa = Some (Struct A n n d) -> nth None h d = Some (Block cs) ->
  matrix_at (matrix_determinant_h h (Some pa)).1.1 pa = Some (mkMatrix n n cs) /\
  matrix_at (matrix_inverse_h h (Some pa)).1.1 pa = Some (mkMatrix n n cs).
Proof.
move=> ea ed.
have lta : pa < size h by case: ltnP ea => // le; rewrite nth_default.
have ltd : d < size h by case: ltnP ed => // le; rewrite nth_default.
have [_ kd] := determinant_h_kept h (Some pa).
have [_ ki] := inverse_h_kept h (Some pa).
by split; rewrite /matrix_at ?kd ?ki // ea /block ?kd ?ki // ed.
Qed.

Lemma input_unchanged_witness :
  matrix_at (matrix_determinant_h heap_example (Some 0)).1.1 0 =
    Some (M64 2 2 [:: 4; 3; 6; 3]%float) /\
  matrix_at (matrix_inverse_h heap_example (Some 0)).1.1 0 =
    Some (M64 2 2 [:: 4; 3; 6; 3]%float).
Proof.
exact: (@input_unchanged binary64 heap_example 0 2 1 [:: 4; 3; 6; 3]%float
          (erefl _) (erefl _)).
Defined.

(** ** Product and transpose *)

Section ProductTranspose.

Variable A : Arith.
Implicit Types (a b : Matrix A).

Lemma dot_uptoS a b m r c :
  dot_upto a b m.+1 r c =
    add (dot_upto a b m r c) (mul (matrix_get a r m) (matrix_get b m c)).
Proof. by rewrite /dot_upto -addn1 iotaD foldl_cat. Qed.

Lemma matrix_multiply_spec a b :
  cols a = rows b ->
  exists p : Matrix A,
    [/\ matrix_multiply (Some a) (Some b) = Some p,
        rows p = rows a, cols p = cols b &
        agrees (rows a) (cols b) (data p) (dot_upto a b (cols a))].
Proof.
move=> sh; rewrite /matrix_multiply sh eqxx /=; eexists; split=> //=.
set n := rows a; set w := cols b; rewrite -sh.
pose z (r c : nat) := zero A.
have ag0 : agrees n w (nseq (n * w) (zero A)) z.
  by split=> [|r c _ _]; rewrite ?size_nseq ?rd_nseq.
have := @row_loop A n w 0 n _ (dot_upto a b (cols a)) z _ (leqnn n) (leq0n n) ag0.
move=> H; apply: agrees_ext (H _ _) => [r c rn _|r t /andP[_ rn] agt].
  by rewrite /= rn.
pose P k t := agrees n w t
  (fun r' c' => if r' == r then dot_upto a b k r c'
                else if r' < r then dot_upto a b (cols a) r' c' else zero A).
have : P (cols a) (for_range 0 (cols a)
  (fun k cd =>
     let aik := matrix_get a r k in
     for_range 0 w (fun j cd =>
        wr cd (r * w + j) (add (rd cd (r * w + j)) (mul aik (matrix_get b k j))))
       cd) t).
  apply: (@for_range_inv _ P) => //.
    apply: agrees_ext agt => r' c' _ _ /=.
    by case: (r' =P r) => [->|//]; rewrite ltnn.
  move=> k u _ Pu /=.
  have := @cell_loop A n w r 0 w
    (fun j cd => add (rd cd (r * w + j)) (mul (matrix_get a r k) (matrix_get b k j)))
    (fun j => dot_upto a b k.+1 r j) _ u rn (leqnn _) (leq0n _) Pu.
  move=> H'; apply: agrees_ext (H' _) => [r' c' _ cw'|j v /andP[_ jw] [_ vv]].
    by rewrite /= cw' andbT; case: (r' == r).
  by rewrite dot_uptoS vv //= ?eqxx ?ltnn /= ?eqxx.
apply: agrees_ext => r' c' _ _; rewrite /= ltnS [r' <= r]leq_eqVlt.
by case: (r' =P r) => [->|].
Qed.

Lemma matrix_transpose_spec a :
  [/\ rows (matrix_transpose a) = cols a, cols (matrix_transpose a) = rows a &
      agrees (cols a) (rows a) (data (matrix_transpose a))
             (fun r c => matrix_get a c r)].
Proof.
rewrite /matrix_transpose; set n := cols a; set w := rows a.
pose Q (f : nat -> nat -> A) (t : Matrix A) :=
  [/\ rows t = n, cols t = w & agrees n w (data t) f].
pose P i := Q (fun r c => if c < i then matrix_get a c r else zero A).
have : P w (for_range 0 w (fun i =>
    for_range 0 n (fun j t => matrix_set t j i (matrix_get a i j)))
    (matrix_create A n w)).
  apply: (@for_range_inv _ P) => //.
    split=> //; split=> [|r c _ _]; first by rewrite /= size_nseq.
    by rewrite rd_nseq.
  move=> i t /andP[_ iw] Pt.
  pose P' j := Q (fun r c => if (c < i) || ((c == i) && (r < j))
                             then matrix_get a c r else zero A).
  have : P' n (for_range 0 n (fun j t => matrix_set t j i (matrix_get a i j)) t).
    apply: (@for_range_inv _ P') => //.
      have [er ec ag] := Pt; split=> //; apply: agrees_ext ag => r c _ _.
      by rewrite ltn0 andbF orbF.
    move=> j u /andP[_ jn] [er ec ag]; split=> //=; rewrite ec.
    apply: agrees_ext (agrees_wr (matrix_get a i j) jn iw ag) => r c _ _.
    rewrite ltnS [r <= j]leq_eqVlt.
    case: (c =P i) => [->|_]; rewrite ?andbF //= ltnn /=.
    by case: (r =P j) => [->|].
  case=> er ec ag; split=> //; apply: agrees_ext ag => r c rn _.
  by rewrite ltnS [c <= i]leq_eqVlt rn andbT orbC.
by case=> er ec ag; split=> //; apply: agrees_ext ag => r c _ ->.
Qed.

End ProductTranspose.

(** ** The determinant in an ordered field *)

Lemma for_exit_iota_inv (S R : Type) (P : nat -> S -> Prop)
    (body : nat -> S -> R + S) lo k s s' :
  P lo s ->
  (forall i t t', lo <= i < lo + k -> P i t -> body i t = inr t' -> P i.+1 t') ->
  for_exit body (iota lo k) s = inr s' -> P (lo + k) s'.
Proof.
elim: k lo s => [|k IH] lo s Ps step /=; first by case=> <-; rewrite addn0.
case eb: (body lo s) => [//|t] ex; rewrite addnS -addSn.
apply: IH ex; first by apply: step eb; rewrite // leqnn -{1}[lo]addn0 ltn_add2l.
move=> i u u' /andP[li ik]; apply: step.
by rewrite (ltnW li) -addSnnS.
Qed.

Section ExactDeterminant.

Local Open Scope ring_scope.

Variable F : realFieldType.
Local Notation X := (exact F).
Implicit Types (f : nat -> nat -> F).

Lemma eps_value_gt0 : 0 < rat_of_Q eps_value.
Proof. by rewrite ltNge -(Qrat_le (Qrat_rat_of_Q eps_value) Qrat0). Qed.

Lemma exact_eps_gt0 : 0 < exact_eps F.
Proof. by rewrite /exact_eps ltr0q eps_value_gt0. Qed.

Lemma not_small_neq0 (x : F) : (`|x| < exact_eps F) = false -> x != 0.
Proof.
by apply: contraFN => /eqP ->; rewrite normr0 exact_eps_gt0.
Qed.

Lemma table_mx_swap n f (i p : 'I_n) :
  table_mx n (fun r c => f (sw i p r) c) = xrow i p (table_mx n f).
Proof.
apply/matrixP => r c; rewrite !mxE /sw.
case: tpermP => [->|->|/eqP ri /eqP rp]; rewrite ?eqxx //.
  by case: eqP => // ->.
by rewrite -!val_eqE /= in ri rp; rewrite (negbTE ri) (negbTE rp).
Qed.

Lemma det_xrow n (M : 'M[F]_n) (i p : 'I_n) :
  \det (xrow i p M) = (if i == p then 1 else -1) * \det M.
Proof.
rewrite xrowE det_mulmx det_perm odd_tperm.
by case: eqP => _; rewrite ?expr0 ?expr1.
Qed.

(** Subtracting multiples of row [i] from the rows below it. *)
Lemma det_row_combination n (M : 'M[F]_n) (i : 'I_n) (k : 'I_n -> F) :
  \det (\matrix_(r, c) (M r c - (if (i < r)%N then k r else 0) * M i c)) = \det M.
Proof.
pose L : 'M[F]_n :=
  \matrix_(r, c) ((r == c :> nat)%:R - (if (i < r)%N then k r else 0) * (c == i :> nat)%:R).
have -> : \matrix_(r, c) (M r c - (if (i < r)%N then k r else 0) * M i c) = L *m M.
  apply/matrixP => r c; rewrite !mxE.
  under eq_bigr => j _ do rewrite mxE mulrBl.
  rewrite sumrB.
  have -> : \sum_(j < n) (r == j :> nat)%:R * M j c = M r c.
    rewrite (bigD1 r) //= eqxx mul1r big1 ?addr0 // => j /negbTE.
    by rewrite -val_eqE /= eq_sym => ->; rewrite mul0r.
  have -> // : \sum_(j < n) (if (i < r)%N then k r else 0) * (j == i :> nat)%:R * M j c =
            (if (i < r)%N then k r else 0) * M i c.
    rewrite (bigD1 i) //= eqxx mulr1 big1 ?addr0 // => j /negbTE.
    by rewrite -val_eqE /= => ->; rewrite mulr0 mul0r.
have trigL : is_trig_mx L.
  apply/is_trig_mxP => r c rc; rewrite mxE (ltn_eqF rc).
  case: ifP => [ir|_]; last by rewrite mul0r subrr.
  by rewrite (gtn_eqF (ltn_trans ir rc)) mulr0 subrr.
rewrite det_mulmx (det_trig trigL) big1 ?mul1r // => r _; rewrite mxE eqxx.
by case: ifP => [ir|_]; rewrite ?mul0r ?subr0 // (gtn_eqF ir) mulr0 subr0.
Qed.

Lemma swap_agrees n w i piv (E : seq X) f :
  (i < n)%N -> (piv < n)%N -> agrees n w E f ->
  agrees n w (if piv != i then swap_rows w w i piv E else E)
    (fun r c => f (sw i piv r) c).
Proof.
move=> lti ltp ag; case: eqP => [->|_] /=.
  by apply: agrees_ext ag => r c _ _; rewrite /sw; case: eqP => // ->.
apply: agrees_ext (swap_rows_spec lti ltp (leqnn w) ag) => r c _ cw.
by rewrite cw /sw; do 2![case: eqP => _ //].
Qed.

Lemma det_step_exact n (A0 : 'M[F]_n) i st st' :
  (i < n)%N -> det_inv A0 i st -> det_step n i st = inr st' ->
  det_inv A0 i.+1 st'.
Proof.
move=> lti [f ag [Hdet Hz Hp]]; rewrite /det_step.
have /andP[ip pn] := find_pivot_range n (ds_mat st) lti.
set piv := find_pivot n n i (ds_mat st) in ip pn *.
have [_ vm] := ag; rewrite vm //=.
case small: (_ < _) => //; have pnz := not_small_neq0 small.
have ag1 := swap_agrees lti pn ag; have [_ vm1] := ag1.
rewrite vm1 // {1 2}/sw eqxx; case=> <-.
set f1 := (fun r c => f (sw i piv r) c) in ag1 vm1.
have ag2 := det_eliminate_spec (f piv i) lti ag1.
exists (det_eliminated i (f piv i) f1) => //=.
have f1z r c : (c < i)%N -> (c < r)%N -> (r < n)%N -> f1 r c = 0.
  move=> ci cr rn; rewrite /f1 /sw.
  case: (r =P i) => [_|_]; first by apply: Hz => //; apply: leq_trans ip.
  by case: (r =P piv) => [_|_]; apply: Hz.
have f1ii : f1 i i = f piv i by rewrite /f1 /sw eqxx.
split.
- pose io := Ordinal lti; pose po := Ordinal pn.
  have -> : table_mx n (det_eliminated i (f piv i) f1) =
      \matrix_(r, c) (table_mx n f1 r c -
         (if (io < r)%N then f1 r i / f piv i else 0) * table_mx n f1 io c).
    apply/matrixP => r c; rewrite !mxE /det_eliminated /=.
    case: (ltnP i r) => [ir|_] /=; last by rewrite mul0r subr0.
    case: (leqP i c) => [//|ci] /=.
    by rewrite (f1z i c) // mulr0 subr0.
  rewrite (det_row_combination _ io (fun r => f1 r i / f piv i)).
  rewrite (table_mx_swap f io po) det_xrow -val_eqE /= -Hdet eq_sym.
  by case: eqP => _ /=; rewrite ?mul1r // intrN mulN1r mulrNN.
- move=> r c; rewrite ltnS leq_eqVlt /det_eliminated => /orP[/eqP ->|ci] ir rn /=.
    by rewrite ir leqnn /= f1ii divfK // subrr.
  by rewrite [(i <= c)%N]leqNgt ci andbF f1z.
rewrite big_nat_recr //= Hp /det_eliminated ltnn /= f1ii; congr (_ * _).
apply: eq_big_nat => j /andP[_ ji]; rewrite ltnNge (ltnW ji) /= /f1 /sw.
by rewrite (ltn_eqF ji) (ltn_eqF (leq_trans ji ip)).
Qed.

Lemma upper_triangular_det n f :
  (forall r c, (c < r)%N -> (r < n)%N -> f r c = 0) ->
  \det (table_mx n f) = \prod_(0 <= j < n) f j j.
Proof.
move=> up; have trig : is_trig_mx (table_mx n f)^T.
  by apply/is_trig_mxP => r c rc; rewrite !mxE up.
rewrite -det_tr (det_trig trig) big_mkord.
by apply: eq_bigr => j _; rewrite !mxE.
Qed.

Lemma det_init_inv (a : Matrix X) :
  rows a = cols a -> well_formed a ->
  det_inv (to_mx (rows a) a) 0 (det_init a).
Proof.
move=> sq wf; exists (matrix_get a) => /=.
  split=> [|r c _ _]; first by rewrite size_take wf -sq ltnn.
  by rewrite take_oversize ?wf -?sq // /matrix_get -sq.
by split=> //; rewrite ?mul1r // big_geq.
Qed.

Lemma determinant_exact (a : Matrix X) :
  rows a = cols a -> well_formed a -> det_completes a ->
  (matrix_determinant (Some a)).1 = \det (to_mx (rows a) a).
Proof.
move=> sq wf; rewrite /det_completes /matrix_determinant sq eqxx /= -sq /det_loop.
case ex: (for_exit _ _ _) => [//|st] _.
have := for_exit_iota_inv (P := det_inv (to_mx (rows a) a)) (det_init_inv sq wf) _ ex.
rewrite add0n => /(_ (fun i t t' lt => @det_step_exact _ _ i t t' lt)).
case=> f ag [Hdet Hz ->] /=.
rewrite -Hdet mulrC upper_triangular_det // => r c cr rn.
by apply: Hz => //; apply: ltn_trans cr rn.
Qed.

Lemma transpose_well_formed (a : Matrix X) : well_formed (matrix_transpose a).
Proof. by rewrite /well_formed; have [-> -> []] := matrix_transpose_spec a. Qed.

Lemma to_mx_transpose (a : Matrix X) :
  rows a = cols a ->
  to_mx (rows a) (matrix_transpose a) = (to_mx (rows a) a)^T.
Proof.
move=> sq; have [_ ect [_ vt]] := matrix_transpose_spec a.
apply/matrixP => r c; rewrite !mxE {1}/matrix_get ect vt //.
by rewrite -sq.
Qed.

End ExactDeterminant.

(** In an ordered field, when the elimination runs through all columns
    both for a matrix and for its transpose, the two results are equal: each
    is the determinant of the matrix. *)
Lemma transpose_determinant_field (F : realFieldType) (a : Matrix (exact F)) :
  rows a = cols a -> well_formed a ->
  det_completes a -> det_completes (matrix_transpose a) ->
  (matrix_determinant (Some (matrix_transpose a))).1 =
  (matrix_determinant (Some a)).1.
Proof.
move=> sq wf ca ct.
have [ert ect _] := matrix_transpose_spec a.
have sqt : rows (matrix_transpose a) = cols (matrix_transpose a).
  by rewrite ert ect.
rewrite (determinant_exact sqt (transpose_well_formed a) ct).
rewrite (determinant_exact sq wf ca) ert -sq to_mx_transpose //.
exact: det_tr.
Qed.


(** ** The inverse in an ordered field *)

Section ExactInverse.

Local Open Scope ring_scope.

Variable F : realFieldType.
Local Notation X := (exact F).

Lemma inv_step_exact n (a : Matrix X) i E E' :
  (i < n)%N -> inv_inv n a i E -> inv_step n i E = inr E' ->
  (forall r, (r < n)%N -> r != i ->
     let x := rd (pivoted n i E) (r * (2 * n) + i) in
     `|x| < exact_eps F -> x = 0) ->
  inv_inv n a i.+1 E'.
Proof.
move=> lti [f ag [J1 J2]]; rewrite /inv_step /pivoted.
have iw : (i < 2 * n)%N by rewrite mul2n -addnn ltn_addl.
have nw k : (k < n)%N -> (n + k < 2 * n)%N.
  by move=> kn; rewrite mul2n -addnn ltn_add2l.
have lw k : (k < n)%N -> (k < 2 * n)%N.
  by move=> kn; rewrite mul2n -addnn ltn_addl.
have /andP[ip pn] := find_pivot_range (2 * n) E lti.
set piv := find_pivot (2 * n) n i E in ip pn *.
have [_ vE] := ag; rewrite vE //=.
case small: (_ < _) => //; have pnz := not_small_neq0 small.
have ag1 := swap_agrees lti pn ag.
set E1 := if piv != i then _ else _ in ag1 *.
set f1 := (fun r c => f (sw i piv r) c) in ag1.
have ag2 := inv_normalize_spec lti ag1.
set E2 := inv_normalize n i E1 in ag2 *.
set f2 := (fun r c => if r == i then _ else _) in ag2.
have ag3 := inv_eliminate_spec lti ag2.
case=> <- noskip; exists (inv_eliminated i f2) => //.
have swn r : (r < n)%N -> (sw i piv r < n)%N.
  by rewrite /sw => rn; do 2![case: ifP => _ //].
have f1ii : f1 i i = f piv i by rewrite /f1 /sw eqxx.
have J1_1 r c : (r < n)%N -> (c < n)%N ->
    f1 r c = \sum_(0 <= k < n) f1 r (n + k)%N * matrix_get a k c.
  by move=> rn cn; rewrite /f1 J1 // swn.
have J2_1 r c : (r < n)%N -> (c < i)%N -> f1 r c = (r == c)%:R.
  move=> rn ci; rewrite /f1 J2 ?swn // /sw.
  case: (r =P i) => [->|_].
    by rewrite (gtn_eqF ci) (gtn_eqF (leq_trans ci ip)).
  case: (r =P piv) => [->|//].
  by rewrite (gtn_eqF ci) (gtn_eqF (leq_trans ci ip)).
have J1_2 r c : (r < n)%N -> (c < n)%N ->
    f2 r c = \sum_(0 <= k < n) f2 r (n + k)%N * matrix_get a k c.
  move=> rn cn; rewrite /f2; case: eqP => _; last exact: J1_1.
  rewrite J1_1 //= mulr_suml; apply: eq_bigr => k _.
  by rewrite mulrAC.
have f2ii : f2 i i = 1 by rewrite /f2 eqxx f1ii /= divff.
have J2_2 r c : (r < n)%N -> (c < i)%N -> f2 r c = (r == c)%:R.
  move=> rn ci; rewrite /f2; case: (r =P i) => [->|_]; last exact: J2_1.
  by rewrite J2_1 //= (gtn_eqF ci) mul0r.
have x2 r : (r < n)%N -> rd E2 (r * (2 * n) + i) = f2 r i.
  by move=> rn; have [_ ->] := ag2.
split=> [r c rn cn|r c rn].
  rewrite /inv_eliminated /=; case: (r =P i) => [_|_]; first exact: J1_2.
  case: ifP => _; first exact: J1_2.
  rewrite J1_2 // [f2 i c]J1_2 // mulr_sumr -sumrB.
  by apply: eq_bigr => k _; rewrite mulrBl mulrA.
rewrite ltnS leq_eqVlt /inv_eliminated /= => /orP[/eqP ->|ci].
  case: (r =P i) => [->|/eqP ri]; first by rewrite f2ii.
  case: ifP => [sm|_]; last by rewrite f2ii mulr1 subrr.
  by have := noskip r rn ri; rewrite /= x2 //; apply.
case: (r =P i) => [->|_]; first exact: J2_2.
case: ifP => _; first exact: J2_2.
by rewrite [f2 i c]J2_2 // (gtn_eqF ci) mulr0 subr0 J2_2.
Qed.

Lemma inv_loop_exact n (a : Matrix X) k i E E' :
  (i + k = n)%N -> inv_inv n a i E ->
  skips_only_zeros n (iota i k) E ->
  for_exit (inv_step n) (iota i k) E = inr E' -> inv_inv n a n E'.
Proof.
elim: k i E => [|k IH] i E /=; first by rewrite addn0 => -> ? _ [<-].
rewrite addnS -addSn => eik Ji.
have lti : (i < n)%N by rewrite -eik ltn_addr.
case es: (inv_step n i E) => [//|E1] [ns sk]; apply: (IH _ _ eik) sk.
exact: inv_step_exact lti Ji es ns.
Qed.

Lemma sum_delta n (r : nat) (g : nat -> F) :
  (r < n)%N -> \sum_(0 <= k < n) (r == k)%:R * g k = g r.
Proof.
move=> rn; rewrite (bigD1_seq r) ?mem_index_iota ?iota_uniq //= eqxx mul1r.
rewrite big1 ?addr0 // => k /negbTE; rewrite eq_sym => ->.
by rewrite mul0r.
Qed.

Lemma inv_init_inv (a : Matrix X) :
  rows a = cols a -> inv_inv (rows a) a 0 (inv_init a).
Proof.
move=> sq; eexists; first exact: inv_init_spec.
split=> // r c rn cn /=; rewrite cn.
under eq_bigr => k _ do rewrite ltnNge leq_addr /= addKn.
have -> : \sum_(0 <= k < rows a) (if r == k then 1 else 0) * matrix_get a k c =
          \sum_(0 <= k < rows a) (r == k)%:R * matrix_get a k c.
  by apply: eq_bigr => k _; case: (r == k).
by rewrite sum_delta.
Qed.

Lemma foldl_sum (g : nat -> F) (z : F) (s : seq nat) :
  foldl (fun acc k => acc + g k) z s = z + \sum_(k <- s) g k.
Proof.
elim: s z => [|k s IH] z /=; first by rewrite big_nil addr0.
by rewrite IH big_cons addrA.
Qed.

Lemma inverse_exact (a b : Matrix X) :
  rows a = cols a -> well_formed a ->
  matrix_inverse (Some a) = (Some b, [::]) ->
  skips_only_zeros (rows a) (iota 0 (rows a)) (inv_init a) ->
  matrix_multiply (Some a) (Some b) = Some (identity_matrix X (rows a)).
Proof.
move=> sq wf inv sk; set n := rows a in sk *.
have [E ex eb] : exists2 E, for_exit (inv_step n) (iota 0 n) (inv_init a) = inr E
                          & inv_extract n E = b.
  move: inv; rewrite /matrix_inverse sq eqxx /= -sq -/n.
  by case: (for_exit _ _ _) => [//|E] [eb]; exists E.
have [f ag [J1 J2]] := inv_loop_exact (add0n n) (inv_init_inv sq) sk ex.
have [erb ecb [szb vb]] := inv_extract_spec ag; rewrite eb in erb ecb szb vb.
pose R : 'M[F]_n := \matrix_(r, k) f r (n + k)%N.
have RA : R *m to_mx n a = 1%:M.
  apply/matrixP => r c; rewrite !mxE -val_eqE /= -(J2 r c) // (J1 r c) // big_mkord.
  by apply: eq_bigr => k _; rewrite !mxE.
have AR r c : (r < n)%N -> (c < n)%N ->
    \sum_(0 <= k < n) matrix_get a r k * f k (n + c)%N = (r == c)%:R.
  move=> rn cn; have := mulmx1C RA => /matrixP /(_ (Ordinal rn) (Ordinal cn)).
  rewrite !mxE -val_eqE /= => <-; rewrite big_mkord.
  by apply: eq_bigr => k _; rewrite !mxE.
have sh : cols a = rows b by rewrite erb -sq.
have [p [-> erp ecp [szp vp]]] := matrix_multiply_spec sh.
congr Some; case: p erp ecp szp vp => pr pc pd /= -> -> szp vp.
rewrite ecb /identity_matrix; congr mkMatrix.
apply: (@agrees_eq X n n _ _ (@identity_table X)); last first.
  split=> [|r c rn cn]; first by rewrite size_mkseq.
  rewrite /rd nth_mkseq ?cell_lt // divnMDl ?divn_small ?addn0 ?modnMDl ?modn_small //.
  exact: leq_ltn_trans cn.
split=> [|r c rn cn]; first by rewrite szp ecb.
rewrite ecb in vp; rewrite vp // /dot_upto -sq foldl_sum add0r /identity_table.
have -> : (if r == c then one X else zero X) = (r == c)%:R by case: (r == c).
rewrite -AR // /index_iota subn0 -/n !big_seq; apply: eq_bigr => k.
rewrite mem_iota add0n => /andP[_ kn] /=.
by rewrite {2}/matrix_get ecb vb.
Qed.

End ExactInverse.

(** ** The tolerance claims *)



(** * Further properties of the routines *)

(** ** Cells *)

(** X1. Within the bounds of the matrix, [matrix_set] changes the cell it
    addresses and no other: reading the same cell gives the stored value,
    reading any other cell gives what was there before; the shape is kept. *)
Theorem set_then_get (A : Arith) (m : Matrix A) (i j i' j' : nat) (v : A) :
  i < rows m -> j < cols m -> i' < rows m -> j' < cols m ->
  [/\ rows (matrix_set m i j v) = rows m,
      cols (matrix_set m i j v) = cols m &
      matrix_get (matrix_set m i j v) i' j' =
        if (i' == i) && (j' == j) then v else matrix_get m i' j'].
Proof.
by move=> _ jc _ jc'; split=> //; rewrite /matrix_get /matrix_set /= rd_wr cell_inj.
Qed.

Lemma set_then_get_witness :
  [/\ rows (matrix_set det_example 1 0 9%float) = 2,
      cols (matrix_set det_example 1 0 9%float) = 2 &
      matrix_get (matrix_set det_example 1 0 9%float) 0 1 = 3%float].
Proof.
exact: (@set_then_get binary64 det_example 1 0 0 1 9%float isT isT isT isT).
Defined.

(** ** Product *)

(** X2. [matrix_multiply] returns NULL exactly when [a->cols != b->rows];
    otherwise the result has [a->rows] rows and [b->cols] columns, holds
    exactly rows * cols entries, and entry [(i, j)] is the sum of
    [a[i][k] * b[k][j]] accumulated from zero in the order [k = 0, 1, ...]. *)
Theorem multiply_shape_entries (A : Arith) (a b : Matrix A) :
  (cols a != rows b -> matrix_multiply (Some a) (Some b) = None) /\
  (cols a == rows b ->
     exists p : Matrix A,
       [/\ matrix_multiply (Some a) (Some b) = Some p,
           rows p = rows a, cols p = cols b, well_formed p &
           forall i j, i < rows a -> j < cols b ->
             matrix_get p i j = dot_upto a b (cols a) i j]).
Proof.
split=> [ne|/eqP sh]; first by rewrite /matrix_multiply (negbTE ne).
have [p [ep er ec [sz vals]]] := matrix_multiply_spec sh.
exists p; split=> //; first by rewrite /well_formed sz er ec.
by move=> i j ir jc; rewrite /matrix_get ec vals.
Qed.

Lemma multiply_shape_entries_witness :
  exists p : Matrix binary64,
    [/\ matrix_multiply (Some det_example) (Some add_sub_b) = Some p,
        rows p = 2, cols p = 2, well_formed p &
        forall i j, i < 2 -> j < 2 ->
          matrix_get p i j = dot_upto det_example add_sub_b 2 i j].
Proof. exact: (proj2 (@multiply_shape_entries binary64 det_example add_sub_b) isT). Defined.

(** ** Transpose *)

(** X3. [matrix_transpose] returns a matrix with rows and columns
    exchanged, holding exactly rows * cols entries, whose entry [(j, i)] is
    entry [(i, j)] of the argument. *)
Theorem transpose_shape_entries (A : Arith) (a : Matrix A) :
  [/\ rows (matrix_transpose a) = cols a,
      cols (matrix_transpose a) = rows a,
      well_formed (matrix_transpose a) &
      forall i j, i < rows a -> j < cols a ->
        matrix_get (matrix_transpose a) j i = matrix_get a i j].
Proof.
have [er ec [sz vals]] := matrix_transpose_spec a.
split=> //; first by rewrite /well_formed sz er ec.
by move=> i j ir jc; rewrite /matrix_get ec vals.
Qed.

(** X4. Transposing twice gives back the matrix, for every matrix whose
    buffer has rows * cols entries. *)
Theorem transpose_involution (A : Arith) (a : Matrix A) :
  well_formed a -> matrix_transpose (matrix_transpose a) = a.
Proof.
move=> wf.
have [er ec [_ vals]] := matrix_transpose_spec a.
have [er2 ec2 ag2] := matrix_transpose_spec (matrix_transpose a).
case: (matrix_transpose (matrix_transpose a)) er2 ec2 ag2 => r c d /= -> -> ag2.
rewrite er ec; case: a wf er ec vals ag2 => ra ca da /= wf er ec vals ag2.
congr mkMatrix; rewrite er ec in ag2; apply: agrees_eq ag2 _.
split=> // i j ir jc.
by rewrite /matrix_get ec vals.
Qed.

Lemma transpose_involution_witness :
  matrix_transpose (matrix_transpose add_sub_a) = add_sub_a.
Proof. exact: (@transpose_involution binary64 add_sub_a (erefl _)). Defined.

(** ** Addition *)

Lemma SFadd_comm prec emax (x y : spec_float) :
  SFadd prec emax x y = SFadd prec emax y x.
Proof.
case: x => [sx|sx| |sx mx ex]; case: y => [sy|sy| |sy my ey] //=;
  try by case: sx; case: sy.
by rewrite Z.min_comm Z.add_comm.
Qed.

Lemma float_add_comm (x y : float) : PrimFloat.add x y = PrimFloat.add y x.
Proof. by apply: Prim2SF_inj; rewrite !add_spec /SF64add SFadd_comm. Qed.

(** X5. In binary64 the sum computed by [matrix_add_sub] does not depend
    on the order of its arguments: [matrix_add_sub(a, b, 0)] and
    [matrix_add_sub(b, a, 0)] return the same result, NULL included. *)
Theorem add_commutes (a b : option (Matrix binary64)) :
  matrix_add_sub a b 0 = matrix_add_sub b a 0.
Proof.
case: a b => [a|] [b|] //; rewrite /matrix_add_sub.
rewrite [rows b == _]eq_sym [cols b == _]eq_sym.
case: (rows a =P rows b) => [er|//]; case: (cols a =P cols b) => [ec|//] /=.
rewrite -er -ec; congr (Some (mkMatrix _ _ _)).
by apply: eq_for_range => i t _; rewrite /= float_add_comm.
Qed.

(** ** Shape of the inverse *)

Lemma inv_extract_well_formed (A : Arith) n (E : seq A) :
  well_formed (inv_extract n E).
Proof.
suff [] : agrees n n (data (inv_extract n E))
                 (fun r c => rd E (r * (2 * n) + (n + c))) by [].
pose z (r c : nat) := zero A.
have ag0 : agrees n n (nseq (n * n) (zero A)) z.
  by split=> [|r c _ _]; rewrite ?size_nseq ?rd_nseq.
have H := @row_loop A n n 0 n _ (fun r c => rd E (r * (2 * n) + (n + c))) z _
            (leqnn n) (leq0n n) ag0.
apply: agrees_ext (H _ _) => [r c rn _|r b /andP[_ rn] agb]; first by rewrite /= rn.
have := @cell_loop A n n r 0 n
  (fun c b => rd E (r * (2 * n) + (n + c)))
  (fun c => rd E (r * (2 * n) + (n + c))) _ b rn (leqnn _) (leq0n _) agb.
move=> H'; apply: agrees_ext (H' _) => [r' c' _ cw'|//].
rewrite /= cw' andbT ltnS [r' <= r]leq_eqVlt.
by case: (r' =P r) => [->|//].
Qed.

(** X6. Whatever the arithmetic, [matrix_inverse] returns a matrix only
    for a square argument, and then the result is square of the same order
    with exactly n * n entries, and nothing is written to stderr. *)
Theorem inverse_shape (A : Arith) (a b : Matrix A) (err : seq string) :
  matrix_inverse (Some a) = (Some b, err) ->
  [/\ rows a = cols a, rows b = rows a, cols b = rows a, well_formed b &
      err = [::]].
Proof.
rewrite /matrix_inverse; case: eqP => [sq|//] /=.
case: (for_exit _ _ _) => [//|E] [<- <-]; split=> //.
exact: inv_extract_well_formed.
Qed.

Lemma inverse_shape_witness :
  exists b : Matrix binary64,
    [/\ rows det_example = cols det_example, rows b = 2, cols b = 2,
        well_formed b & (matrix_inverse (Some det_example)).2 = [::]].
Proof.
eexists.
exact: (@inverse_shape binary64 det_example _ _ (erefl _)).
Defined.

(** ** The heap routines compute what the pure routines compute *)

Lemma for_exit_sim (S1 S2 R1 R2 : Type) (phi : S1 -> S2) (psi : R1 -> R2)
    (body1 : nat -> S1 -> R1 + S1) (body2 : nat -> S2 -> R2 + S2) idx s :
  (forall i t, body2 i (phi t) =
     match body1 i t with inl r => inl (psi r) | inr t' => inr (phi t') end) ->
  for_exit body2 idx (phi s) =
    match for_exit body1 idx s with inl r => inl (psi r) | inr t' => inr (phi t') end.
Proof.
move=> sim; elim: idx s => [|i idx IH] s //=.
by rewrite sim; case: (body1 i s).
Qed.

Section Lifting.

Variable A : Arith.
Implicit Types (h : heap A) (cs : seq A).

Lemma nth_hput h p cs q :
  nth None (hput h p cs) q = if q == p then Some (Block cs) else nth None h q.
Proof. by rewrite /hput nth_set_nth. Qed.

Lemma block_hput h p cs q : block (hput h p cs) q = if q == p then cs else block h q.
Proof. by rewrite /block nth_hput; case: eqP. Qed.

Lemma hrd_hput h p cs q k :
  hrd (hput h p cs) q k = if q == p then rd cs k else hrd h q k.
Proof. by rewrite /hrd block_hput; case: eqP. Qed.

Lemma hput_hput h p c1 c2 : hput (hput h p c1) p c2 = hput h p c2.
Proof. by rewrite /hput set_set_nth eqxx. Qed.

Lemma hwr_hput h p cs k v : hwr (hput h p cs) p k v = hput h p (wr cs k v).
Proof. by rewrite /hwr nth_hput eqxx -/(hput _ p _) hput_hput. Qed.

Lemma set_nth_same (T : Type) (x0 : T) (s : seq T) p :
  p < size s -> set_nth x0 s p (nth x0 s p) = s.
Proof.
move=> lt; apply: (@eq_from_nth _ x0) => [|q _].
  by rewrite size_set_nth; apply/maxn_idPr.
by rewrite nth_set_nth /=; case: eqP => // ->.
Qed.

Lemma hput_block h p cs : nth None h p = Some (Block cs) -> hput h p cs = h.
Proof.
move=> e; have lt : p < size h by case: ltnP e => // le; rewrite nth_default.
rewrite /hput -e; exact: (@set_nth_same _ None h p lt).
Qed.

Lemma rcons_hput h cs : rcons h (Some (Block cs)) = hput (rcons h None) (size h) cs.
Proof.
rewrite /hput; elim: h => [|x h IH] //=.
by rewrite IH.
Qed.

Lemma hfree_hput h p cs : nth None h p = None -> p < size h ->
  hfree (hput h p cs) p = h.
Proof.
move=> e lt; rewrite /hfree /hput size_set_nth.
have -> : maxn p.+1 (size h) = size h by apply/maxn_idPr.
rewrite lt set_set_nth eqxx -[X in set_nth _ _ _ X]e.
exact: (@set_nth_same _ None h p lt).
Qed.

(** A loop of stores into block [p] is the loop on the contents of [p]. *)
Lemma lift_range h p lo hi (bh : nat -> heap A -> heap A)
    (bp : nat -> seq A -> seq A) cs :
  (forall i t, bh i (hput h p t) = hput h p (bp i t)) ->
  for_range lo hi bh (hput h p cs) = hput h p (for_range lo hi bp cs).
Proof.
move=> lift; rewrite /for_range.
by elim: (iota _ _) cs => [|i idx IH] cs //=; rewrite lift IH.
Qed.

Lemma find_pivot_h_lift w n i p h cs :
  find_pivot_h w n i p (hput h p cs) = find_pivot w n i cs.
Proof.
by apply: eq_for_range => r piv _; rewrite !hrd_hput eqxx.
Qed.

Lemma swap_rows_h_lift w len i piv p h cs :
  swap_rows_h w len i piv p (hput h p cs) = hput h p (swap_rows w len i piv cs).
Proof.
by apply: lift_range => c t /=; rewrite !hwr_hput !hrd_hput eqxx.
Qed.

Lemma det_eliminate_h_lift n i pivot p h cs :
  det_eliminate_h n i pivot p (hput h p cs) = hput h p (det_eliminate n i pivot cs).
Proof.
apply: lift_range => r t /=; rewrite hrd_hput eqxx.
by apply: lift_range => c u /=; rewrite hwr_hput !hrd_hput eqxx.
Qed.

Lemma inv_normalize_h_lift n i p h cs :
  inv_normalize_h n i p (hput h p cs) = hput h p (inv_normalize n i cs).
Proof.
rewrite /inv_normalize_h /inv_normalize hrd_hput eqxx.
by apply: lift_range => c t /=; rewrite hwr_hput !hrd_hput eqxx.
Qed.

Lemma inv_eliminate_h_lift n i p h cs :
  inv_eliminate_h n i p (hput h p cs) = hput h p (inv_eliminate n i cs).
Proof.
apply: lift_range => r t /=; case: ifP => // _.
rewrite hrd_hput eqxx; case: ifP => // _.
by apply: lift_range => c u /=; rewrite hwr_hput !hrd_hput eqxx.
Qed.

End Lifting.

Section Refinement.

Variable A : Arith.
Implicit Types (h : heap A) (cs : seq A).

Lemma hput_comm h p q c1 c2 :
  p != q -> hput (hput h p c1) q c2 = hput (hput h q c2) p c1.
Proof. by move=> ne; rewrite /hput set_set_nth (negbTE ne). Qed.

Lemma hcopy_lift h dst src cs n t :
  dst != src -> nth None h src = Some (Block cs) ->
  hcopy dst src n (hput h dst t) =
    hput h dst (for_range 0 n (fun k u => wr u k (rd cs k)) t).
Proof.
move=> ne es; apply: lift_range => k u.
by rewrite hwr_hput hrd_hput eq_sym (negbTE ne) /hrd /block es.
Qed.

Lemma copy_take cs n :
  n <= size cs ->
  for_range 0 n (fun k u => wr u k (rd cs k)) (nseq n (zero A)) = take n cs.
Proof.
move=> le; have /= [sz rr] := add_sub_fill (rd cs) n.
apply: extensional_buffers; first by rewrite sz size_take_min; apply/esym/minn_idPl.
by move=> k; rewrite sz => lt; rewrite rr // rd_take.
Qed.

Lemma det_step_h_lift n mat i h (st : det_state A) :
  det_step_h n mat i (hput h mat (ds_mat st), ds_det st, ds_sign st) =
  match det_step n i st with
  | inl r => inl (hput h mat (ds_mat r), ds_det r, ds_sign r)
  | inr r => inr (hput h mat (ds_mat r), ds_det r, ds_sign r)
  end.
Proof.
rewrite /det_step_h /det_step find_pivot_h_lift hrd_hput eqxx.
case: ifP => // _.
by case: (_ != _); rewrite ?swap_rows_h_lift hrd_hput eqxx det_eliminate_h_lift.
Qed.

Lemma live_lt h p o : nth None h p = Some o -> p < size h.
Proof. by case: ltnP => // le; rewrite nth_default. Qed.

Lemma nth_rcons_live h p o x : nth None h p = Some o -> nth None (rcons h x) p = Some o.
Proof. by move=> e; rewrite nth_rcons (live_lt e). Qed.

(** X11. [matrix_determinant] on a square matrix stored in the heap returns
    the value computed on the contents of its data block, and leaves the
    heap as it found it up to one address, that of the working copy, which
    has been allocated and freed again. *)
Theorem determinant_heap_refines h pa n d cs :
  nth None h pa = Some (Struct A n n d) -> nth None h d = Some (Block cs) ->
  size cs = n * n ->
  matrix_determinant_h h (Some pa) =
    (rcons h None, (matrix_determinant (Some (mkMatrix n n cs))).1, [::]).
Proof.
move=> ea ed sz; rewrite /matrix_determinant_h /matrix_determinant ea /= eqxx /=.
have ne : size h != d by rewrite neq_ltn (live_lt ed) orbT.
have ed' : nth None (rcons h None) d = Some (Block cs) by apply: nth_rcons_live.
rewrite /halloc rcons_hput (hcopy_lift _ _ ne ed').
rewrite copy_take ?sz // /det_loop /det_init /=.
pose phi (st : det_state A) := (hput (rcons h None) (size h) (ds_mat st), ds_det st, ds_sign st).
rewrite -[(hput _ _ _, _, _)]/(phi (DetState (take (n * n) cs) (one A) 1%R)).
rewrite (@for_exit_sim _ _ _ _ phi phi (det_step n) _ _ _
           (fun i t => det_step_h_lift n (size h) i (rcons h None) t)).
by case: (for_exit _ _ _) => r /=; rewrite hfree_hput ?nth_rcons ?size_rcons ?ltnn ?eqxx.
Qed.

Lemma set_nth_catl (T : Type) (x0 : T) (s1 s2 : seq T) p v :
  p < size s1 -> set_nth x0 (s1 ++ s2) p v = set_nth x0 s1 p v ++ s2.
Proof. by elim: s1 p => [|x s1 IH] [|p] //= lt; rewrite IH. Qed.

Lemma set_nth_catr (T : Type) (x0 : T) (s1 s2 : seq T) p v :
  set_nth x0 (s1 ++ s2) (size s1 + p) v = s1 ++ set_nth x0 s2 p v.
Proof. by elim: s1 => [|x s1 IH] //=; rewrite IH. Qed.

Lemma inv_init_h_lift n d E h cs :
  E != d -> nth None h d = Some (Block cs) ->
  inv_init_h n d E (hput h E (nseq (n * 2 * n) (zero A))) =
    hput h E (inv_init (mkMatrix n n cs)).
Proof.
move=> ne ed; rewrite /inv_init_h /inv_init /=.
apply: lift_range => i t; apply: lift_range => j u /=.
by rewrite hrd_hput eq_sym (negbTE ne) !hwr_hput /matrix_get /= /hrd /block ed.
Qed.

Lemma inv_step_h_lift n E i h t :
  nth None h E = None -> E < size h ->
  inv_step_h n E i (hput h E t) =
    match inv_step n i t with inl _ => inl h | inr t' => inr (hput h E t') end.
Proof.
move=> eN lt; rewrite /inv_step_h /inv_step find_pivot_h_lift hrd_hput eqxx.
case: ifP => _; first by rewrite hfree_hput.
by case: (_ != _); rewrite ?swap_rows_h_lift inv_normalize_h_lift inv_eliminate_h_lift.
Qed.

(** [matrix_create] appends the struct and its zero-filled data. *)
Lemma matrix_create_h_eq r c g :
  matrix_create_h r c g =
    (g ++ [:: Some (Struct A r c (size g).+1);
              Some (Block (nseq (r * c) (zero A)))], size g).
Proof.
rewrite /matrix_create_h /halloc /= size_rcons; congr (_, _).
by rewrite -!cats1 -catA /= -[X in set_nth _ _ X _]addn0 set_nth_catr.
Qed.

Lemma inv_extract_h_lift n E dst G (t z : seq A) :
  E != dst -> nth None G E = Some (Block t) ->
  inv_extract_h n E dst (hput G dst z) =
    hput G dst
      (for_range 0 n (fun i =>
         for_range 0 n (fun j d => wr d (i * n + j) (rd t (i * (2 * n) + (n + j))))) z).
Proof.
move=> ne eE; rewrite /inv_extract_h.
apply: lift_range => i u; apply: lift_range => j v /=.
by rewrite hrd_hput (negbTE ne) hwr_hput /hrd /block eE.
Qed.

(** X12. [matrix_inverse] on a square matrix stored in the heap: when the
    computation on the contents of its data block gives no inverse, NULL is
    returned and the heap is as before up to the freed augmented buffer;
    otherwise the result is a new matrix placed after that buffer, holding
    the computed inverse, and nothing else has changed. *)
Theorem inverse_heap_refines h pa n d cs :
  nth None h pa = Some (Struct A n n d) -> nth None h d = Some (Block cs) ->
  size cs = n * n ->
  matrix_inverse_h h (Some pa) =
    match (matrix_inverse (Some (mkMatrix n n cs))).1 with
    | None => (rcons h None, None, [::])
    | Some b =>
      (rcons h None ++ [:: Some (Struct A n n (size h).+2); Some (Block (data b))],
       Some (size h).+1, [::])
    end.
Proof.
move=> ea ed sz; rewrite /matrix_inverse_h /matrix_inverse ea /= eqxx /=.
have ne : size h != d by rewrite neq_ltn (live_lt ed) orbT.
have ed' : nth None (rcons h None) d = Some (Block cs) by apply: nth_rcons_live.
have eN : nth None (rcons h None) (size h) = None by rewrite nth_rcons ltnn eqxx.
have lt : size h < size (rcons h None) by rewrite size_rcons.
rewrite /halloc rcons_hput (inv_init_h_lift _ ne ed').
rewrite (@for_exit_sim _ _ _ _ (hput (rcons h None) (size h)) (fun=> rcons h None)
           (inv_step n) _ _ _
           (fun i t => inv_step_h_lift n i t eN lt)).
case: (for_exit _ _ _) => [//|t]; cbv iota beta.
have := matrix_create_h_eq n n (hput (rcons h None) (size h) t).
rewrite /matrix_create_h /halloc /= => -[->].
set g := hput (rcons h None) (size h) t.
have sg : size g = (size h).+1 by rewrite /g /hput size_set_nth size_rcons maxnn.
have eE : nth None (g ++ [:: Some (Struct A n n (size g).+1); None]) (size h) =
          Some (Block t).
  by rewrite nth_cat sg ltnSn /g nth_hput eqxx.
rewrite nth_cat ltnn subnn /=.
have -> : g ++ [:: Some (Struct A n n (size g).+1);
                   Some (Block (nseq (n * n) (zero A)))] =
          hput (g ++ [:: Some (Struct A n n (size g).+1); None]) (size g).+1
               (nseq (n * n) (zero A)).
  by rewrite /hput -addn1 set_nth_catr.
have neE : size h != (size g).+1 by rewrite sg neq_ltn ltnS leqnSn.
rewrite (inv_extract_h_lift _ _ neE eE) sg /hput -sg -addn1 set_nth_catr /=.
rewrite /hfree size_cat sg ltn_addr // set_nth_catl ?sg //.
rewrite /g /hput set_set_nth eqxx -[X in set_nth _ _ _ X]eN.
by rewrite (@set_nth_same _ None (rcons h None) (size h) lt) addn1.
Qed.

End Refinement.

Lemma determinant_heap_refines_witness :
  matrix_determinant_h heap_example (Some 0) =
    (rcons heap_example None, (matrix_determinant (Some det_example)).1, [::]).
Proof.
exact: (@determinant_heap_refines binary64 heap_example 0 2 1
          [:: 4; 3; 6; 3]%float (erefl _) (erefl _) (erefl _)).
Defined.

Lemma inverse_heap_refines_witness :
  matrix_inverse_h heap_example (Some 0) =
    match (matrix_inverse (Some det_example)).1 with
    | None => (rcons heap_example None, None, [::])
    | Some b =>
      (rcons heap_example None ++
         [:: Some (Struct binary64 2 2 4); Some (Block (data b))],
       Some 3, [::])
    end.
Proof.
exact: (@inverse_heap_refines binary64 heap_example 0 2 1
          [:: 4; 3; 6; 3]%float (erefl _) (erefl _) (erefl _)).
Defined.

(** ** Release and copy of a matrix in the heap *)

Section Lifecycle.

Variable A : Arith.
Implicit Types (h : heap A) (cs : seq A).

Lemma nth_hfree h p q :
  nth None (hfree h p) q = if q == p then None else nth None h q.
Proof.
rewrite /hfree; case: ltnP => [lt|le]; first by rewrite nth_set_nth.
by case: eqP => // ->; rewrite nth_default.
Qed.

Lemma size_hfree h p : size (hfree h p) = size h.
Proof.
rewrite /hfree; case: ltnP => // lt.
by rewrite size_set_nth; apply/maxn_idPr.
Qed.

(** X13. [matrix_free] releases the struct and its data block, and nothing
    else: the two addresses are no longer in use, every other address holds
    what it held, and the extent of the heap is the same. *)
Theorem free_releases h p r c d cs :
  nth None h p = Some (Struct A r c d) -> nth None h d = Some (Block cs) ->
  size (matrix_free_h h (Some p)) = size h /\
  forall q, nth None (matrix_free_h h (Some p)) q =
            if (q == p) || (q == d) then None else nth None h q.
Proof.
move=> ep ed; rewrite /matrix_free_h ep; split; first by rewrite !size_hfree.
by move=> q; rewrite !nth_hfree; case: (q == p).
Qed.

(** X14. A matrix that [matrix_create] has just made is released by
    [matrix_free] without a trace: the heap is the one before the creation,
    followed by two addresses out of use. *)
Theorem create_then_free h r c :
  matrix_free_h (matrix_create_h r c h).1 (Some (matrix_create_h r c h).2) =
    h ++ [:: None; None].
Proof.
rewrite matrix_create_h_eq /= /matrix_free_h nth_cat ltnn subnn /=.
rewrite /hfree size_cat /= addn2 ltnSn -addn1 set_nth_catr /=.
by rewrite size_cat /= addn1 addn2 leqnSn -[X in set_nth _ _ X _]addn0 set_nth_catr.
Qed.

(** X15. [matrix_clone] of a matrix whose data block has [rows * cols] cells
    returns a new struct of the same shape with a new data block of the same
    contents, placed after everything the heap held, which is unchanged. *)
Theorem clone_heap h a r c d cs :
  nth None h a = Some (Struct A r c d) -> nth None h d = Some (Block cs) ->
  size cs = r * c ->
  matrix_clone_h h a =
    (h ++ [:: Some (Struct A r c (size h).+1); Some (Block cs)], Some (size h)).
Proof.
move=> ea ed sz; rewrite /matrix_clone_h ea matrix_create_h_eq.
rewrite nth_cat ltnn subnn /=; congr (_, _).
have -> : h ++ [:: Some (Struct A r c (size h).+1);
                   Some (Block (nseq (r * c) (zero A)))] =
          hput (h ++ [:: Some (Struct A r c (size h).+1); None]) (size h).+1
               (nseq (r * c) (zero A)).
  by rewrite /hput -addn1 set_nth_catr.
have ne : (size h).+1 != d by rewrite neq_ltn ltnS (ltnW (live_lt ed)) orbT.
have ed' : nth None (h ++ [:: Some (Struct A r c (size h).+1); None]) d =
           Some (Block cs).
  by rewrite nth_cat (live_lt ed).
rewrite (hcopy_lift _ _ ne ed') copy_take ?sz // -sz take_size.
by rewrite /hput -addn1 set_nth_catr.
Qed.

End Lifecycle.

Lemma free_releases_witness :
  size (matrix_free_h heap_example (Some 0)) = size heap_example /\
  forall q, nth None (matrix_free_h heap_example (Some 0)) q =
            if (q == 0) || (q == 1) then None else nth None heap_example q.
Proof.
exact: (@free_releases binary64 heap_example 0 2 2 1 [:: 4; 3; 6; 3]%float
          (erefl _) (erefl _)).
Defined.

Lemma clone_heap_witness :
  matrix_clone_h heap_example 0 =
    (heap_example ++
       [:: Some (Struct binary64 2 2 3); Some (@Block binary64 [:: 4; 3; 6; 3]%float)],
     Some 2).
Proof.
exact: (@clone_heap binary64 heap_example 0 2 2 1 [:: 4; 3; 6; 3]%float
          (erefl _) (erefl _) (erefl _)).
Defined.

(** ** Sums and products: entries, refusals and equality of matrices *)

Section AddSubGeneral.

Variable A : Arith.

Lemma add_sub_spec (a b : Matrix A) (s : int) :
  rows a = rows b -> cols a = cols b ->
  exists c : Matrix A,
    [/\ matrix_add_sub (Some a) (Some b) s = Some c,
        rows c = rows a, cols c = cols a,
        size (data c) = rows a * cols a &
        forall k, k < rows a * cols a ->
          rd (data c) k =
            add (rd (data a) k)
                (if s != 0 then opp (rd (data b) k) else rd (data b) k)].
Proof.
move=> er ec; rewrite /matrix_add_sub er ec !eqxx /= -er -ec.
have /= [sz vals] := add_sub_fill
  (fun k => add (rd (data a) k)
                (if s != 0 then opp (rd (data b) k) else rd (data b) k))
  (rows a * cols a).
by eexists; split.
Qed.

Lemma multiply_mismatch (a b : Matrix A) :
  cols a != rows b -> matrix_multiply (Some a) (Some b) = None.
Proof. by rewrite /matrix_multiply => /negbTE ->. Qed.

Lemma multiply_null_l (b : option (Matrix A)) : matrix_multiply None b = None.
Proof. by []. Qed.

Lemma multiply_null_r (a : option (Matrix A)) : matrix_multiply a None = None.
Proof. by case: a. Qed.

Lemma matrix_ext (p q : Matrix A) n w f :
  rows p = n -> cols p = w -> agrees n w (data p) f ->
  rows q = n -> cols q = w -> agrees n w (data q) f -> p = q.
Proof.
case: p => pr pc pd; case: q => qr qc qd /= -> -> ap -> -> aq.
by rewrite (agrees_eq ap aq).
Qed.

Lemma matrix_eq (p q : Matrix A) :
  rows p = rows q -> cols p = cols q -> data p = data q -> p = q.
Proof. by case: p => pr pc pd; case: q => qr qc qd /= -> -> ->. Qed.

End AddSubGeneral.

(** ** Random fill *)

Section RandomFill.

Variable A : Arith.
Variables (G : Type) (rand : G -> int * G) (RAND_MAX : int).
Implicit Types (m : Matrix A) (g : G).

Local Notation next := (fun g => (rand g).2).

Lemma random_fill_spec m (minv maxv : A) g :
  well_formed m ->
  let val k :=
    add minv (mul (sub maxv minv)
                  (div (of_int A (rand_nth rand g k)) (of_int A RAND_MAX))) in
  let res := matrix_random rand RAND_MAX m minv maxv g in
  [/\ rows res.1 = rows m, cols res.1 = cols m,
      res.2 = iter (rows m * cols m) next g &
      agrees (rows m) (cols m) (data res.1) (fun r c => val (r * cols m + c))].
Proof.
move=> wf val res; rewrite /res /matrix_random {res}.
set n := rows m; set w := cols m.
pose f0 r c := rd (data m) (r * w + c).
pose Q i j (st : Matrix A * G) :=
  [/\ rows st.1 = n, cols st.1 = w, st.2 = iter (i * w + j) next g &
      agrees n w (data st.1)
        (fun r c => if (r < i) || ((r == i) && (c < j)) then val (r * w + c)
                    else f0 r c)].
pose P i (st : Matrix A * G) :=
  [/\ rows st.1 = n, cols st.1 = w, st.2 = iter (i * w) next g &
      agrees n w (data st.1) (fun r c => if r < i then val (r * w + c) else f0 r c)].
have inner i st : i < n -> P i st ->
    P i.+1 (for_range 0 w (fun j st =>
      let: (m, g) := st in
      let: (r, g) := rand g in
      (matrix_set m i j
         (add minv (mul (sub maxv minv) (div (of_int A r) (of_int A RAND_MAX)))),
       g)) st).
  move=> lt [er ec eg ag].
  have [er' ec' eg' ag'] : Q i w (for_range 0 w (fun j st =>
      let: (m, g) := st in
      let: (r, g) := rand g in
      (matrix_set m i j
         (add minv (mul (sub maxv minv) (div (of_int A r) (of_int A RAND_MAX)))),
       g)) st).
    apply: (@for_range_inv _ (Q i)) => //.
      split=> //; first by rewrite addn0.
      by apply: agrees_ext ag => r c _ _; rewrite ltn0 andbF orbF.
    move=> j [m' g'] /andP[_ jw] [/= erj ecj egj agj].
    case erg: (rand g') => [r g''] /=; split=> //.
      by rewrite addnS /= -egj erg.
    rewrite /= ecj.
    have -> : r = rand_nth rand g (i * w + j) by rewrite /rand_nth -egj erg.
    apply: agrees_ext (agrees_wr (val (i * w + j)) lt jw agj) => r' c' _ _.
    rewrite ltnS [c' <= j]leq_eqVlt.
    case: (r' =P i) => [->|_] //=.
    by rewrite ltnn /=; case: (c' =P j) => [->|_].
  split=> //; first by rewrite eg' mulSn addnC.
  apply: agrees_ext ag' => r c _ cw.
  by rewrite cw andbT ltnS [r <= i]leq_eqVlt orbC.
have [er ec eg ag] : P n (for_range 0 n (fun i =>
    for_range 0 w (fun j st =>
      let: (m, g) := st in
      let: (r, g) := rand g in
      (matrix_set m i j
         (add minv (mul (sub maxv minv) (div (of_int A r) (of_int A RAND_MAX)))),
       g))) (m, g)).
  apply: (@for_range_inv _ P);
    [by [] | by split | by move=> i st /andP[_ lt]; apply: inner].
split=> //; apply: agrees_ext ag => r c rn _.
by rewrite rn.
Qed.

(** X21. [matrix_random] keeps the shape of the matrix, calls [rand()] once
    for each entry in row-major order, and stores in entry [(i, j)] the
    value [minv + (maxv - minv) * (r / RAND_MAX)] for the value [r] of call
    number [i * cols + j]. *)
Theorem random_fill m (minv maxv : A) g :
  well_formed m ->
  [/\ rows (matrix_random rand RAND_MAX m minv maxv g).1 = rows m,
      cols (matrix_random rand RAND_MAX m minv maxv g).1 = cols m,
      well_formed (matrix_random rand RAND_MAX m minv maxv g).1,
      (matrix_random rand RAND_MAX m minv maxv g).2 =
        iter (rows m * cols m) (fun g => (rand g).2) g &
      forall i j, i < rows m -> j < cols m ->
        matrix_get (matrix_random rand RAND_MAX m minv maxv g).1 i j =
          add minv
              (mul (sub maxv minv)
                   (div (of_int A (rand_nth rand g (i * cols m + j)))
                        (of_int A RAND_MAX)))].
Proof.
move=> wf; have /= [er ec eg [sz vals]] := random_fill_spec minv maxv g wf.
split=> //; first by rewrite /well_formed sz er ec.
by move=> i j lti ltj; rewrite /matrix_get ec vals.
Qed.

End RandomFill.

Lemma random_fill_witness :
  let rand := fun _ : unit => (1%Z, tt) in
  [/\ rows (matrix_random rand 2%Z det_example 0%float 1%float tt).1 = rows det_example,
      cols (matrix_random rand 2%Z det_example 0%float 1%float tt).1 = cols det_example,
      well_formed (matrix_random rand 2%Z det_example 0%float 1%float tt).1,
      (matrix_random rand 2%Z det_example 0%float 1%float tt).2 =
        iter (rows det_example * cols det_example) (fun g => (rand g).2) tt &
      forall i j, i < rows det_example -> j < cols det_example ->
        matrix_get (matrix_random rand 2%Z det_example 0%float 1%float tt).1 i j =
          add (0%float : binary64)
              (mul (sub (1%float : binary64) 0%float)
                   (div (of_int binary64 (rand_nth rand tt (i * cols det_example + j)))
                        (of_int binary64 2%Z)))].
Proof.
exact: (@random_fill binary64 unit (fun _ : unit => (1%Z, tt)) 2%Z det_example
          0%float 1%float tt (erefl _)).
Defined.

(** ** Reading a matrix from a text file *)

Lemma for_exit_iota_both (S R : Type) (P : nat -> S -> Prop) (Q : R -> Prop)
    (body : nat -> S -> R + S) lo k s :
  P lo s ->
  (forall i t, lo <= i < lo + k -> P i t ->
     match body i t with inl r => Q r | inr t' => P i.+1 t' end) ->
  match for_exit body (iota lo k) s with inl r => Q r | inr t' => P (lo + k) t' end.
Proof.
elim: k lo s => [|k IH] lo s Ps step /=; first by rewrite addn0.
have := step lo s _ Ps; rewrite leqnn -{1}[lo]addn0 ltn_add2l /= => /(_ isT).
case: (body lo s) => // t Pt; rewrite addnS -addSn; apply: IH => // i u /andP[li ik].
by apply: step; rewrite (ltnW li) -addSnnS.
Qed.

Section Load.

Variable A : Arith.
Variable stream : Type.
Variable scan_size : stream -> option (nat * stream).
Variable scan_double : stream -> option (A * stream).

Local Notation scan_doubles := (scan_doubles scan_double).

Lemma scan_doubles_more k s vs s1 v s2 :
  scan_doubles k s = Some (vs, s1) -> scan_double s1 = Some (v, s2) ->
  scan_doubles k.+1 s = Some (rcons vs v, s2).
Proof.
elim: k s vs => [|k IH] s vs /=; first by case=> <- <- ->.
case: (scan_double s) => [[x s']|] //.
case er: (scan_doubles k s') => [[xs s'']|] // [<- e2] e.
by rewrite e2 in er; have /= -> := IH _ _ er e.
Qed.

Lemma scan_doubles_stop k n s vs s1 :
  scan_doubles k s = Some (vs, s1) -> scan_double s1 = None -> k < n ->
  scan_doubles n s = None.
Proof.
elim: k n s vs => [|k IH] [|n] s vs //=; first by case=> _ <- ->.
case: (scan_double s) => [[x s']|] //.
case er: (scan_doubles k s') => [[xs s'']|] // [_ e2] e lt.
by rewrite e2 in er; have /= -> := IH n _ _ er e lt.
Qed.

Lemma take_wr (d : seq A) p v :
  p < size d -> take p.+1 (wr d p v) = rcons (take p d) v.
Proof.
move=> lt; have sp : size (take p d) = p by rewrite size_take_min; apply/minn_idPl/ltnW.
apply: (@eq_from_nth _ (zero A)).
  by rewrite size_rcons sp size_take_min size_wr //; apply/minn_idPl.
move=> q; rewrite size_take_min size_wr // (minn_idPl lt) => lq.
rewrite nth_take // nth_rcons sp -/(rd _ _) rd_wr.
move: lq; rewrite ltnS leq_eqVlt; case: eqP => [-> _|_ /= lq]; first by rewrite ltnn.
by rewrite lq nth_take.
Qed.

Lemma load_txt_spec (s : stream) :
  matrix_load_txt scan_size scan_double (Some s) =
    if scan_size s is Some (r, s1) then
      if scan_size s1 is Some (c, s2) then
        if scan_doubles (r * c) s2 is Some (vs, _) then Some (mkMatrix r c vs)
        else None
      else None
    else None.
Proof.
rewrite /matrix_load_txt; case: (scan_size s) => [[r s1]|] //.
case: (scan_size s1) => [[c s2]|] //=.
pose Reads p (st : seq A * stream) :=
  size st.1 = r * c /\ scan_doubles p s2 = Some (take p st.1, st.2).
pose Q (_ : unit) := scan_doubles (r * c) s2 = None.
pose inner i j (st : seq A * stream) : unit + seq A * stream :=
  let: (d, s) := st in
  match scan_double s with
  | None => inl tt
  | Some (v, s) => inr (wr d (i * c + j) v, s)
  end.
have in_ok i st : i < r -> Reads (i * c) st ->
    match for_exit (inner i) (iota 0 c) st with
    | inl u => Q u
    | inr t' => Reads (i.+1 * c) t'
    end.
  move=> lt Pst.
  have := @for_exit_iota_both _ _ (fun j => Reads (i * c + j)) Q (inner i) 0 c st.
  rewrite add0n addn0 [i * c + c]addnC -mulSn; apply=> // j [d s'] /andP[_ jc].
  move=> [/= sz rd_ok].
  have lp : i * c + j < size d by rewrite sz cell_lt.
  case es: (scan_double s') => [[v s'']|]; last first.
    by apply: (scan_doubles_stop rd_ok es); rewrite -sz.
  split; first by rewrite /= size_wr.
  by rewrite /= addnS take_wr // (scan_doubles_more rd_ok es).
have := @for_exit_iota_both _ _ (fun i => Reads (i * c)) Q
  (fun i => for_exit (inner i) (iota 0 c)) 0 r (nseq (r * c) (zero A), s2).
rewrite add0n -/inner.
have P0 : Reads (0 * c) (nseq (r * c) (zero A), s2).
  by split; rewrite /= ?size_nseq ?take0.
move=> /(_ P0) post.
have {post} := post (fun i st le Pst => in_ok i st (proj2 (andP le)) Pst).
case: (for_exit _ _ _) => [[] ->|[d s3] [/= sz ->]] //.
by rewrite -sz take_size.
Qed.

(** X23. [matrix_load_txt] reads two sizes and then [rows * cols] numbers
    one after the other; it returns NULL when one of these conversions
    fails, and otherwise the matrix of this shape that holds the numbers in
    row-major order.  What follows the last number is not looked at. *)
Theorem load_reads_row_major (s : stream) :
  matrix_load_txt scan_size scan_double (Some s) =
    if scan_size s is Some (r, s1) then
      if scan_size s1 is Some (c, s2) then
        if scan_doubles (r * c) s2 is Some (vs, _) then Some (mkMatrix r c vs)
        else None
      else None
    else None.
Proof. exact: load_txt_spec. Qed.

End Load.


(** ** Writing a matrix to a text file and reading it back *)

Lemma for_range_append (T : Type) (f : nat -> seq T) n (out : seq T) :
  for_range 0 n (fun i out => out ++ f i) out = out ++ flatten (mkseq f n).
Proof.
elim: n => [|n IH]; first by rewrite for_range_done // cats0.
by rewrite for_range_last // IH /mkseq -addn1 iotaD map_cat flatten_cat /= cats0 catA.
Qed.

Lemma flatten_rows (T : Type) (x0 : T) (d : seq T) r c :
  size d = r * c ->
  flatten (mkseq (fun i => mkseq (fun j => nth x0 d (i * c + j)) c) r) = d.
Proof.
move=> sz.
have H k : k <= r ->
    flatten (mkseq (fun i => mkseq (fun j => nth x0 d (i * c + j)) c) k) =
      take (k * c) d.
  elim: k => [|k IH] lt; first by rewrite mul0n take0.
  rewrite /mkseq -addn1 iotaD map_cat flatten_cat /= cats0 -/(mkseq _ k) IH ?(ltnW lt) //.
  rewrite add0n mulnDl mul1n takeD; congr (_ ++ _).
  have le : k * c + c <= size d by rewrite sz addnC -mulSn leq_mul2r lt orbT.
  apply: (@eq_from_nth _ x0).
    rewrite size_map size_iota size_take_min size_drop; apply/esym/minn_idPl.
    by rewrite leq_subRL ?(leq_trans (leq_addr _ _) le).
  move=> j; rewrite size_map size_iota => jc.
  by rewrite (nth_map 0) ?size_iota // nth_iota // add0n nth_take // nth_drop.
by rewrite H // -sz take_size.
Qed.

Section SaveLoad.

Variable A : Arith.
Variable stream : Type.
Variable scan_size : stream -> option (nat * stream).
Variable scan_double : stream -> option (A * stream).
Variables (put_size : nat -> stream -> stream) (put_double : A -> stream -> stream).
Variables (put_space put_newline : stream -> stream).

(** The number [%lf] reads from the text [%.12g] gives for [x]. *)
Variable text_value : A -> A.

Local Notation scan_doubles := (scan_doubles scan_double).
Local Notation written := (written put_size put_double put_space put_newline).
Local Notation heads xs s :=
  (exists s', scan_doubles (size xs%SEQ) s = Some (xs%SEQ, s')).

Lemma save_pieces (m : Matrix A) :
  (matrix_save_txt true m).2 =
    [:: Size A (rows m); Space A; Size A (cols m); Newline A] ++
    flatten (mkseq (fun i =>
      flatten [seq [:: Number (matrix_get m i j); Space A] | j <- iota 0 (cols m)] ++
      [:: Newline A]) (rows m)).
Proof.
rewrite -for_range_append /matrix_save_txt /=.
by apply: eq_for_range => i out _; rewrite for_range_append -cats1 -catA.
Qed.

Lemma written_cat ps qs (t : stream) : written (ps ++ qs) t = written ps (written qs t).
Proof. by rewrite /written foldr_cat. Qed.

(** Blanks are skipped, and a number is read back up to the blank after it. *)
Hypothesis double_space : forall s, scan_double (put_space s) = scan_double s.
Hypothesis double_newline : forall s, scan_double (put_newline s) = scan_double s.
Hypothesis double_read : forall x s,
  scan_double (put_double x (put_space s)) = Some (text_value x, put_space s).

Lemma heads_blank (put : stream -> stream) xs s :
  (forall s, scan_double (put s) = scan_double s) ->
  heads xs s -> heads xs (put s).
Proof.
move=> skip; case: xs => [|x xs] [s' /= e]; first by exists (put s).
by exists s'; rewrite skip.
Qed.

Lemma heads_cells xs ys t :
  heads ys t ->
  heads (map text_value xs ++ ys)
        (written (flatten [seq [:: Number x; Space A] | x <- xs]) t).
Proof.
move=> hy; elim: xs => [|x xs IH] //=.
have [s' e] := heads_blank double_space IH.
by exists s'; rewrite double_read e.
Qed.

Lemma heads_rows (xss : seq (seq A)) t :
  heads (flatten [seq map text_value xs | xs <- xss])
        (written (flatten [seq flatten [seq [:: Number x; Space A] | x <- xs] ++
                               [:: Newline A] | xs <- xss]) t).
Proof.
elim: xss => [|xs xss IH] /=; first by exists t.
rewrite !written_cat; apply: heads_cells.
exact: (heads_blank double_newline IH).
Qed.

(** A size is read back up to the blank after it. *)
Hypothesis size_space : forall s, scan_size (put_space s) = scan_size s.
Hypothesis size_read_space : forall n s,
  scan_size (put_size n (put_space s)) = Some (n, put_space s).
Hypothesis size_read_newline : forall n s,
  scan_size (put_size n (put_newline s)) = Some (n, put_newline s).

(** X24. When the C library reads back a size as it was written, skips
    blanks, and reads the text of a number [x] as [text_value x], loading the
    file that [matrix_save_txt] wrote for a matrix gives the matrix of the
    same shape whose entries are the [text_value] of the entries saved. *)
Theorem load_after_save (m : Matrix A) (rest : stream) :
  well_formed m ->
  matrix_load_txt scan_size scan_double
      (Some (written (matrix_save_txt true m).2 rest)) =
    Some (mkMatrix (rows m) (cols m) (map text_value (data m))).
Proof.
move=> wf; rewrite load_txt_spec save_pieces /= size_read_space size_space.
rewrite size_read_newline.
pose xss := mkseq (fun i => mkseq (fun j => matrix_get m i j) (cols m)) (rows m).
have -> : mkseq (fun i =>
      flatten [seq [:: Number (matrix_get m i j); Space A] | j <- iota 0 (cols m)] ++
      [:: Newline A]) (rows m) =
    [seq flatten [seq [:: Number x; Space A] | x <- xs] ++ [:: Newline A] | xs <- xss].
  by rewrite /xss /mkseq -!map_comp; apply: eq_map => i /=; rewrite -map_comp.
have [s' ] := heads_blank double_newline (heads_rows xss rest).
rewrite -map_flatten size_map /xss (flatten_rows _ wf) wf => -> //.
Qed.

End SaveLoad.

Lemma load_after_save_witness :
  matrix_load_txt (@pieces_scan_size binary64) (@pieces_scan_double binary64)
    (Some (written (fun n s => Size binary64 n :: s) (fun x s => Number x :: s)
                   (fun s => Space binary64 :: s) (fun s => Newline binary64 :: s)
                   (matrix_save_txt true det_example).2 [::])) =
  Some (mkMatrix (rows det_example) (cols det_example) (map id (data det_example))).
Proof.
exact: (@load_after_save binary64 _
          (@pieces_scan_size binary64) (@pieces_scan_double binary64)
          (fun n s => Size binary64 n :: s) (fun x s => Number x :: s)
          (fun s => Space binary64 :: s) (fun s => Newline binary64 :: s) id
          (fun _ => erefl) (fun _ => erefl) (fun _ _ => erefl)
          (fun _ => erefl) (fun _ _ => erefl) (fun _ _ => erefl)
          det_example [::] (erefl _)).
Defined.

(** ** Copy of a matrix *)

(** X25. [matrix_clone] always returns a matrix of the shape of its argument
    with exactly rows * cols entries, and for an argument whose buffer has
    rows * cols entries the copy is equal to the original. *)
Theorem clone_is_copy (A : Arith) (a : Matrix A) :
  [/\ rows (matrix_clone a) = rows a, cols (matrix_clone a) = cols a &
      well_formed (matrix_clone a)] /\
  (well_formed a -> matrix_clone a = a).
Proof.
split; first split=> //.
  rewrite /well_formed /= size_cat size_take_min size_drop size_nseq.
  by rewrite minnE subnK ?leq_subr.
case: a => r c d; rewrite /well_formed /matrix_clone /= => sz.
by rewrite -sz take_size drop_oversize ?size_nseq // cats0.
Qed.

(** ** The determinant loop follows the specification's reading *)

Section DetRun.

Variable A : Arith.
Hypothesis ltb_irrefl : forall x : A, ltb x x = false.
Hypothesis ltb_trans : forall x y z : A, ltb x y -> ltb y z -> ltb x z.

Lemma det_loop_run n i (st : det_state A) f :
  i <= n -> agrees n n (ds_mat st) f ->
  exists2 out, spec_run n i f out &
    let res := for_exit (det_step n) (iota i (n - i)) st in
    let st' := match res with inl st' => st' | inr st' => st' end in
    mul (ds_det st') (of_int A (ds_sign st')) = run_value (ds_det st) (ds_sign st) out /\
    (if res is inl _ then exists k, out = Singular A k
     else exists ps k, out = Triangular ps k).
Proof.
move=> le; have [k ek] : exists k, n - i = k by eexists.
elim: k i le ek st f => [|k IH] i le ek st f ag.
  have ei : i = n by apply/eqP; rewrite eqn_leq le -subn_eq0 ek /=.
  exists (Triangular [::] 0); first by rewrite ei; exact: spec_done.
  by rewrite ek /= /sign_of expr0 mulr1; split=> //; exists [::], 0.
have lt : i < n by rewrite -subn_gt0 ek.
have [_ vf] := ag.
have [rng big] := find_pivot_row ltb_irrefl ltb_trans n (ds_mat st) lt.
set piv := find_pivot n n i (ds_mat st) in rng big.
have /andP[_ pn] := rng.
have lc : largest_in_column n i f piv.
  by split=> // r rr; have /andP[_ rn] := rr; rewrite -!vf // big.
rewrite ek /= /det_step -/piv vf //.
case small: (ltb _ _).
  exists (Singular A 0); first exact: spec_singular lc small.
  by rewrite /= /sign_of expr0 mulr1; split=> //; exists 0.
set mat' := if piv != i then swap_rows n n i piv (ds_mat st) else ds_mat st.
pose f' := if piv != i then rows_exchanged i piv f else f.
have ag' : agrees n n mat' f'.
  rewrite /mat' /f'; case: (piv != i) => //.
  apply: agrees_ext (swap_rows_spec lt pn (leqnn n) ag) => r c _ cn.
  by rewrite cn.
have [_ vf'] := ag'.
rewrite vf' //.
set st1 := DetState _ _ _.
have ag1 : agrees n n (ds_mat st1) (column_eliminated i f').
  exact: (det_eliminate_spec (f' i i) lt ag').
have ek1 : n - i.+1 = k by rewrite subnS ek.
have [out run1 /=] := IH i.+1 lt ek1 st1 _ ag1.
rewrite ek1 => -[-> shape].
have run := spec_column lt lc small (erefl f') (fun r c _ _ => erefl _) run1.
eexists; first exact: run.
have es j : ((if piv != i then - ds_sign st else ds_sign st) * sign_of j =
              ds_sign st * sign_of ((piv != i) + j))%R.
  by rewrite /sign_of; case: (piv != i); rewrite ?add0n // add1n exprS mulN1r mulrN mulNr.
split; first by rewrite /st1 /=; case: (out) => [j|ps j] /=; rewrite es.
case: (for_exit _ _ _) shape => _ [].
  by move=> j ->; exists ((piv != i) + j).
by move=> ps [j ->]; exists (f' i i :: ps), ((piv != i) + j).
Qed.

Lemma determinant_run (a : Matrix A) :
  rows a = cols a -> well_formed a ->
  exists2 out, spec_run (rows a) 0 (matrix_get a) out &
    (matrix_determinant (Some a)).1 = outcome_value out /\
    (if for_exit (det_step (rows a)) (iota 0 (rows a)) (det_init a) is inl _
     then exists k, out = Singular A k else exists ps k, out = Triangular ps k).
Proof.
move=> sq wf; rewrite /matrix_determinant sq eqxx /= -sq /det_loop.
have ag : agrees (rows a) (rows a) (ds_mat (det_init a)) (matrix_get a).
  have e : rows a * rows a = size (data a) by rewrite wf -sq.
  rewrite /det_init /= e take_size; split=> // r c _ _.
  by rewrite /matrix_get -sq.
have [out run /=] := det_loop_run (leq0n (rows a)) ag.
rewrite subn0 => -[-> shape]; exists out => //; split=> //.
by case: out {run shape} => [k|ps k] /=; rewrite mul1r.
Qed.

End DetRun.

(** C2, amended.  On a square matrix [matrix_determinant] returns the
    product of the pivots, accumulated left to right from 1.0, times a sign
    that flips once per row exchange; the pivot of column [i] is the diagonal
    entry once a row of [i .. n-1] that no row of this range exceeds in
    magnitude in column [i] has been exchanged with row [i], and the rows
    below lose their multiple of the pivot row.  At the first column whose
    pivot magnitude is below [EPS] the computation stops and the value
    returned is 0.0 times the sign reached: +0.0 after an even number of
    exchanges, -0.0 after an odd number. *)
Theorem determinant_pivots_sign (a : Matrix binary64) :
  rows a = cols a -> well_formed a ->
  exists out : outcome binary64,
    [/\ spec_run (rows a) 0 (matrix_get a) out,
        (matrix_determinant (Some a)).1 = outcome_value out &
        forall k, out = Singular binary64 k ->
          (matrix_determinant (Some a)).1 = if odd k then (-0)%float else 0%float].
Proof.
move=> sq wf.
have [out run [val _]] :=
  @determinant_run binary64 float_ltb_irrefl float_ltb_trans a sq wf.
exists out; split=> // k eo; rewrite val eo /= /sign_of -signr_odd.
by case: (odd k).
Qed.

Lemma determinant_pivots_sign_witness :
  exists out : outcome binary64,
    [/\ spec_run 2 0 (matrix_get det_example) out,
        (matrix_determinant (Some det_example)).1 = outcome_value out &
        forall k, out = Singular binary64 k ->
          (matrix_determinant (Some det_example)).1 =
            if odd k then (-0)%float else 0%float].
Proof. exact: (@determinant_pivots_sign det_example (erefl 2) (erefl 4)). Defined.

(** On [[1,2],[2,4]] the rows are exchanged, the second column has no pivot
    above [EPS], and the value returned is -0.0, which is not the double
    0.0: its reciprocal is negative infinity. *)
Lemma determinant_stops_with_negative_zero :
  ~ (forall a : Matrix binary64,
       rows a = cols a -> well_formed a ->
       (exists k, spec_run (rows a) 0 (matrix_get a) (Singular binary64 k)) ->
       (matrix_determinant (Some a)).1 = 0%float).
Proof.
move/(_ singular_example (erefl 2) (erefl 4)).
have [out run [_ [k eo]]] :=
  @determinant_run binary64 float_ltb_irrefl float_ltb_trans singular_example
    (erefl 2) (erefl 4).
rewrite eo in run => /(_ (ex_intro _ k run)).
by move/(congr1 (fun x => PrimFloat.ltb (PrimFloat.div 1 x) 0)).
Qed.

(** ** The routines commute with maps between arithmetics *)

Lemma for_range_sim (S T : Type) (R : S -> T -> Prop) lo hi
    (body1 : nat -> S -> S) (body2 : nat -> T -> T) s t :
  (forall i s t, R s t -> R (body1 i s) (body2 i t)) ->
  R s t -> R (for_range lo hi body1 s) (for_range lo hi body2 t).
Proof.
move=> step; rewrite /for_range.
by elim: (iota _ _) s t => [|i idx IH] s t // Rst; apply: IH; apply: step.
Qed.

Section MapBuffers.

Variables A B : Arith.
Variable phi : A -> B.
Hypothesis phi0 : phi (zero A) = zero B.

Implicit Types (b : seq A) (m : Matrix A).

Lemma rd_map b k : rd (map phi b) k = phi (rd b k).
Proof.
rewrite /rd; case: (ltnP k (size b)) => [lt|le]; first exact: nth_map.
by rewrite !nth_default ?size_map.
Qed.

Lemma wr_map b k v : wr (map phi b) k (phi v) = map phi (wr b k v).
Proof.
rewrite /wr; elim: b k => [|x b IH] k; last by case: k => [|k] //=; rewrite IH.
by rewrite !set_nth_nil; elim: k => [|k IHk] //=; rewrite phi0 IHk.
Qed.

Lemma nseq_map k : nseq k (zero B) = map phi (nseq k (zero A)).
Proof. by rewrite map_nseq phi0. Qed.

(** A loop of writes, transported. *)
Lemma for_range_map lo hi (body1 : nat -> seq A -> seq A)
    (body2 : nat -> seq B -> seq B) b :
  (forall i t, body2 i (map phi t) = map phi (body1 i t)) ->
  for_range lo hi body2 (map phi b) = map phi (for_range lo hi body1 b).
Proof.
move=> step.
apply: (@for_range_sim _ _ (fun s t => t = map phi s)) => // i s t ->.
exact: step.
Qed.

Lemma matrix_get_map m i j :
  matrix_get (map_matrix phi m) i j = phi (matrix_get m i j).
Proof. by rewrite /matrix_get /= rd_map. Qed.

Lemma matrix_transpose_map m :
  matrix_transpose (map_matrix phi m) = map_matrix phi (matrix_transpose m).
Proof.
rewrite /matrix_transpose /=.
apply: (@for_range_sim _ _ (fun s t => t = map_matrix phi s)) => [i s t ->|].
  apply: (@for_range_sim _ _ (fun s t => t = map_matrix phi s)) => // j u v ->.
  by rewrite matrix_get_map /matrix_set /map_matrix /= wr_map.
by rewrite /matrix_create /map_matrix /= nseq_map.
Qed.

Lemma well_formed_map m : well_formed m -> well_formed (map_matrix phi m).
Proof. by rewrite /well_formed /= size_map. Qed.

End MapBuffers.

Section Transport.

Variables A B : Arith.
Variable phi : A -> B.
Hypothesis mor : arith_morphism phi.

Implicit Types (b E : seq A) (m : Matrix A).

Local Notation phi0 := (phi_zero mor).
Local Notation rd_map := (rd_map phi0).
Local Notation wr_map := (wr_map phi0).
Local Notation nseq_map := (nseq_map phi0).
Local Notation for_range_map := (for_range_map (phi := phi)).
Local Notation matrix_get_map := (matrix_get_map phi0).

Lemma find_pivot_map w n i b : find_pivot w n i (map phi b) = find_pivot w n i b.
Proof.
by apply: eq_for_range => r piv _; rewrite !rd_map -!(phi_fabs mor) (phi_ltb mor).
Qed.

Lemma swap_rows_map w len i piv b :
  swap_rows w len i piv (map phi b) = map phi (swap_rows w len i piv b).
Proof. by apply: for_range_map => c t /=; rewrite !rd_map !wr_map. Qed.

Lemma det_eliminate_map n i pivot b :
  det_eliminate n i (phi pivot) (map phi b) = map phi (det_eliminate n i pivot b).
Proof.
apply: for_range_map => r t /=; rewrite rd_map -(phi_div mor).
apply: for_range_map => c u /=.
by rewrite !rd_map -(phi_mul mor) -(phi_sub mor) wr_map.
Qed.

Lemma inv_normalize_map n i b :
  inv_normalize n i (map phi b) = map phi (inv_normalize n i b).
Proof.
rewrite /inv_normalize rd_map.
by apply: for_range_map => c t /=; rewrite rd_map -(phi_div mor) wr_map.
Qed.

Lemma inv_eliminate_map n i b :
  inv_eliminate n i (map phi b) = map phi (inv_eliminate n i b).
Proof.
apply: for_range_map => r t /=; case: ifP => // _.
rewrite rd_map -(phi_fabs mor) -(phi_EPS mor) (phi_ltb mor); case: ifP => // _.
apply: for_range_map => c u /=.
by rewrite !rd_map -(phi_mul mor) -(phi_sub mor) wr_map.
Qed.

Lemma pivoted_map n i b : pivoted n i (map phi b) = map phi (pivoted n i b).
Proof.
rewrite /pivoted find_pivot_map.
by case: (_ != _); rewrite ?swap_rows_map inv_normalize_map.
Qed.

Lemma inv_step_map n i b :
  inv_step n i (map phi b) =
    match inv_step n i b with inl u => inl u | inr b' => inr (map phi b') end.
Proof.
rewrite /inv_step find_pivot_map rd_map -(phi_fabs mor) -(phi_EPS mor) (phi_ltb mor).
case: ifP => // _.
by case: (_ != _); rewrite ?swap_rows_map inv_normalize_map inv_eliminate_map.
Qed.

Lemma inv_loop_map n idx b :
  for_exit (inv_step n) idx (map phi b) =
    match for_exit (inv_step n) idx b with
    | inl u => inl u
    | inr b' => inr (map phi b')
    end.
Proof.
exact: (@for_exit_sim _ _ _ _ (map phi) id (inv_step n) (inv_step n) idx b
          (fun i t => inv_step_map n i t)).
Qed.

Lemma inv_init_map m : inv_init (map_matrix phi m) = map phi (inv_init m).
Proof.
rewrite /inv_init /= nseq_map.
apply: for_range_map => i t; apply: for_range_map => j u /=.
have -> : (if i == j then one B else zero B) =
          phi (if i == j then one A else zero A).
  by case: (i == j); rewrite ?(phi_one mor) ?phi0.
by rewrite matrix_get_map !wr_map.
Qed.

Lemma inv_extract_map n b :
  inv_extract n (map phi b) = map_matrix phi (inv_extract n b).
Proof.
rewrite /inv_extract /map_matrix /= nseq_map; congr mkMatrix.
apply: for_range_map => i t; apply: for_range_map => j u /=.
by rewrite rd_map wr_map.
Qed.

Lemma matrix_inverse_map m :
  matrix_inverse (Some (map_matrix phi m)) =
    ((omap (map_matrix phi) (matrix_inverse (Some m)).1),
     (matrix_inverse (Some m)).2).
Proof.
rewrite /matrix_inverse /=; case: (_ != _) => //.
rewrite inv_init_map inv_loop_map; case: (for_exit _ _ _) => //= E.
by rewrite inv_extract_map.
Qed.

Lemma matrix_multiply_map m1 m2 :
  matrix_multiply (Some (map_matrix phi m1)) (Some (map_matrix phi m2)) =
    omap (map_matrix phi) (matrix_multiply (Some m1) (Some m2)).
Proof.
rewrite /matrix_multiply /=; case: (_ != _) => //=.
rewrite /map_matrix /= nseq_map; congr (Some (mkMatrix _ _ _)).
apply: for_range_map => i t; apply: for_range_map => k u /=.
apply: for_range_map => j v /=.
by rewrite !matrix_get_map rd_map -(phi_mul mor) -(phi_add mor) wr_map.
Qed.

Lemma det_step_map n i (st : det_state A) :
  det_step n i (DetState (map phi (ds_mat st)) (phi (ds_det st)) (ds_sign st)) =
    match det_step n i st with
    | inl r => inl (DetState (map phi (ds_mat r)) (phi (ds_det r)) (ds_sign r))
    | inr r => inr (DetState (map phi (ds_mat r)) (phi (ds_det r)) (ds_sign r))
    end.
Proof.
rewrite /det_step /= find_pivot_map rd_map -(phi_fabs mor) -(phi_EPS mor).
rewrite (phi_ltb mor); case: ifP => _; first by rewrite phi0.
by case: (_ != _); rewrite /= ?swap_rows_map rd_map -(phi_mul mor) det_eliminate_map.
Qed.

Lemma det_loop_map n idx (st : det_state A) :
  for_exit (det_step n) idx
      (DetState (map phi (ds_mat st)) (phi (ds_det st)) (ds_sign st)) =
    match for_exit (det_step n) idx st with
    | inl r => inl (DetState (map phi (ds_mat r)) (phi (ds_det r)) (ds_sign r))
    | inr r => inr (DetState (map phi (ds_mat r)) (phi (ds_det r)) (ds_sign r))
    end.
Proof.
pose f (st : det_state A) :=
  DetState (map phi (ds_mat st)) (phi (ds_det st)) (ds_sign st).
exact: (@for_exit_sim _ _ _ _ f f (det_step n) (det_step n) idx st
          (fun i t => det_step_map n i t)).
Qed.

Lemma det_init_map m :
  det_init (map_matrix phi m) =
    DetState (map phi (ds_mat (det_init m))) (phi (ds_det (det_init m)))
             (ds_sign (det_init m)).
Proof. by rewrite /det_init /= map_take (phi_one mor). Qed.

Lemma matrix_determinant_map m :
  (matrix_determinant (Some (map_matrix phi m))).1 =
    phi (matrix_determinant (Some m)).1.
Proof.
rewrite /matrix_determinant.
have -> : rows (map_matrix phi m) = rows m by [].
have -> : cols (map_matrix phi m) = cols m by [].
case: (_ != _); first by rewrite /= phi0.
rewrite /det_loop det_init_map det_loop_map.
by case: (for_exit _ _ _) => st /=; rewrite (phi_mul mor) (phi_of_int mor).
Qed.

Lemma runs_through_map m : runs_through (map_matrix phi m) = runs_through m.
Proof.
rewrite /runs_through.
have -> : rows (map_matrix phi m) = rows m by [].
by rewrite det_init_map det_loop_map; case: (for_exit _ _ _).
Qed.

End Transport.

(** ** Rational numbers in an ordered field *)

Lemma int_of_Z_of_int z : int_of_Z (Z_of_int z) = z.
Proof.
case: z => [[|n]|n] //=; first by rewrite SuccNat2Pos.id_succ.
by rewrite SuccNat2Pos.id_succ.
Qed.

Section RationalField.

Variable F : realFieldType.
Local Open Scope ring_scope.
Local Notation phi := (in_field F).

Lemma in_field_add x y : phi (RatDef.Qplus x y) = phi x + phi y.
Proof.
by rewrite /in_field (eqP (QratD (Qrat_rat_of_Q x) (Qrat_rat_of_Q y))) rmorphD.
Qed.

Lemma in_field_opp x : phi (RatDef.Qopp x) = - phi x.
Proof. by rewrite /in_field (eqP (QratN (Qrat_rat_of_Q x))) rmorphN. Qed.

Lemma in_field_sub x y : phi (RatDef.Qminus x y) = phi x - phi y.
Proof. by rewrite /RatDef.Qminus in_field_add in_field_opp. Qed.

Lemma in_field_mul x y : phi (RatDef.Qmult x y) = phi x * phi y.
Proof.
by rewrite /in_field (eqP (QratM (Qrat_rat_of_Q x) (Qrat_rat_of_Q y))) rmorphM.
Qed.

Lemma in_field_inv x : phi (RatDef.Qinv x) = (phi x)^-1.
Proof. by rewrite /in_field (eqP (QratV (Qrat_rat_of_Q x))) fmorphV. Qed.

Lemma in_field_le x y : RatDef.Qle_bool x y = (phi x <= phi y).
Proof. by rewrite /in_field ler_rat (Qrat_le (Qrat_rat_of_Q x) (Qrat_rat_of_Q y)). Qed.

Lemma in_field_eq x y : RatDef.Qeq_bool x y = (phi x == phi y).
Proof.
rewrite /in_field (inj_eq (fmorph_inj _)).
exact: (Qrat_eq (Qrat_rat_of_Q x) (Qrat_rat_of_Q y)).
Qed.

Lemma in_field_0 : phi RatDef.Q0 = 0.
Proof. by rewrite /in_field (eqP Qrat0) rmorph0. Qed.

Lemma in_field_1 : phi RatDef.Q1 = 1.
Proof. by rewrite /in_field (eqP Qrat1) rmorph1. Qed.

Lemma in_field_morphism : @arith_morphism rational (exact F) phi.
Proof.
split=> [||x y|x y|x y|x y|x|x|x y||z] /=.
- exact: in_field_0.
- exact: in_field_1.
- exact: in_field_add.
- exact: in_field_sub.
- exact: in_field_mul.
- by rewrite in_field_mul in_field_inv.
- exact: in_field_opp.
- rewrite in_field_le in_field_0; case: lerP => [le|lt]; first by rewrite ger0_norm.
  by rewrite in_field_opp ltr0_norm.
- by rewrite in_field_le ltNge.
- by [].
- rewrite /in_field /rat_of_Q /= int_of_Z_of_int divr1.
  by rewrite ratr_int.
Qed.

End RationalField.

(** ** Results free of rounding error *)

Lemma all2_nth (S T : Type) (R : S -> T -> bool) x0 y0 (s : seq S) (t : seq T) :
  all2 R s t <->
  size s = size t /\ forall k, k < size s -> R (nth x0 s k) (nth y0 t k).
Proof.
elim: s t => [|x s IH] [|y t] /=.
- by split.
- by split=> // -[].
- by split=> // -[].
split=> [/andP[Rxy /IH[-> H]]|[sz H]]; first by split=> // -[|k] //; apply: H.
case: sz => sz; rewrite (H 0) //=; apply/IH; split=> // k lt.
exact: (H k.+1).
Qed.

Section Unrounded.

Local Open Scope ring_scope.
Local Notation phi := (in_field rat).
Local Notation mor := (in_field_morphism rat).
Local Notation in_rat := (@map_matrix rational (exact rat) phi).

Lemma has_value_eq x q q' : has_value x q -> RatDef.Qeq_bool q q' -> has_value x q'.
Proof.
rewrite /has_value; case: (value x) => // v.
by rewrite !(in_field_eq rat) => /eqP -> /eqP ->.
Qed.

Lemma skips_zeros_field n idx E :
  skips_zeros n idx E -> skips_only_zeros n idx (map phi E).
Proof.
elim: idx E => [|i idx IH] E //=; rewrite (inv_step_map mor).
case: (inv_step n i E) => // E' /andP[/allP sk /IH rest]; split=> // r rn ri /=.
rewrite (pivoted_map mor) (rd_map (phi_zero mor)).
have := sk r; rewrite mem_iota add0n rn (negbTE ri) /= => /(_ isT).
set x := rd _ _ => sx small.
have := phi_ltb mor (fabs x) (EPS rational); rewrite (phi_fabs mor) /= small.
move=> /esym ltx; move: sx; rewrite ltx /= (in_field_eq rat) in_field_0.
by move/eqP.
Qed.

Lemma identity_matrix_field n :
  in_rat (identity_matrix rational n) = identity_matrix (exact rat) n.
Proof.
rewrite /map_matrix /identity_matrix /= -map_comp; congr mkMatrix.
apply: eq_map => j /=; rewrite /identity_table.
by case: (_ == _); rewrite ?in_field_0 ?in_field_1.
Qed.

(** The product of the values of [a] and the inverse the run on rational
    numbers gives is the identity matrix. *)
Lemma rational_inverse_product (a bq pq : Matrix rational) :
  rows a = cols a -> well_formed a ->
  matrix_inverse (Some a) = (Some bq, [::]) ->
  skips_zeros (rows a) (iota 0 (rows a)) (inv_init a) ->
  matrix_multiply (Some a) (Some bq) = Some pq ->
  [/\ rows pq = rows a, cols pq = rows a, size (data pq) = (rows a * rows a)%N &
      forall k, (k < rows a * rows a)%N ->
        RatDef.Qeq_bool (nth RatDef.Q0 (data pq) k)
          (nth RatDef.Q0 (data (identity_matrix rational (rows a))) k)].
Proof.
move=> sq wf hq sk hm.
have hq' : matrix_inverse (Some (in_rat a)) = (Some (in_rat bq), [::]).
  by rewrite (matrix_inverse_map mor) hq.
have sk' : skips_only_zeros (rows a) (iota 0 (rows a)) (inv_init (in_rat a)).
  by rewrite (inv_init_map mor); apply: skips_zeros_field.
have sq' : rows (in_rat a) = cols (in_rat a) by [].
have wf' := @well_formed_map rational (exact rat) phi a wf.
have := @inverse_exact rat _ _ sq' wf' hq' sk'.
rewrite (matrix_multiply_map mor) hm /= -identity_matrix_field => -[er ec ed].
have sz : size (data pq) = (rows a * rows a)%N.
  by have := congr1 size ed; rewrite !size_map size_iota.
split=> // k lt; rewrite (in_field_eq rat).
have := congr1 (fun s => nth 0 s k) ed.
by rewrite !(nth_map RatDef.Q0) ?sz ?size_mkseq // => ->.
Qed.

End Unrounded.

(** ** Values of doubles *)

Example value_of_EPS64 : has_value EPS64 eps_value.
Proof. by vm_compute. Qed.

Example value_of_minus_five_eighths :
  value (-0.625)%float = Some (RatDef.Qmake (-5629499534213120) (Pos.pow 2 53)).
Proof. by vm_compute. Qed.

Example value_of_infinity : value infinity = None.
Proof. by vm_compute. Qed.

(** ** Doubles whose value is zero or one *)

Lemma pow2_neq1 k : Pos.pow 2 k <> 1%positive.
Proof. by elim/Pos.peano_ind: k => [|k _] //; rewrite Pos.pow_succ_r. Qed.

Lemma digits2_pow2 k : digits2_pos (Pos.pow 2 k) = Pos.succ k.
Proof.
elim/Pos.peano_ind: k => [|k IH] //.
by rewrite Pos.pow_succ_r /= IH.
Qed.

Lemma has_value_0 x : has_value x RatDef.Q0 -> x = 0%float \/ x = (-0)%float.
Proof.
rewrite /has_value /value /finite_value -{2 3}(SF2Prim_Prim2SF x).
case: (Prim2SF x) => [[]|s||s m e] //; [by right|by left|].
by rewrite /RatDef.Qeq_bool; case: e => [|k|k]; case: s;
  rewrite /= -?Pos2Z.inj_pow_pos.
Qed.

Lemma Qeq_bool_1 n d : RatDef.Qeq_bool (RatDef.Qmake n d) RatDef.Q1 = Z.eqb n (Z.pos d).
Proof. by rewrite /RatDef.Qeq_bool /= Z.mul_1_r. Qed.

Lemma has_value_1 x : has_value x RatDef.Q1 -> x = 1%float.
Proof.
rewrite /has_value /value /finite_value -{2}(SF2Prim_Prim2SF x).
have := Prim2SF_valid x.
case: (Prim2SF x) => [s|s||s m e] //.
case: e => [|k|k]; rewrite Qeq_bool_1 => vb /Z.eqb_eq E.
- have em : m = 1%positive by case: (s) E => // -[].
  by move: vb; rewrite em.
- exfalso; move: E; rewrite -Pos2Z.inj_pow_pos; case: (s) => //= -[].
  by move/Pos.mul_eq_1_r; apply: pow2_neq1.
have [es em] : s = false /\ m = Pos.pow 2 k by case: (s) E => // -[].
move: vb; rewrite es em.
rewrite /SpecFloat.valid_binary /bounded /canonical_mantissa digits2_pow2.
move=> /andP[/Z.eqb_eq + _]; rewrite /fexp /SpecFloat.emin /prec /emax => ek.
have -> : k = 52%positive by lia.
by [].
Qed.

Lemma carries_nth (m : Matrix binary64) (q : Matrix rational) :
  carries m q ->
  [/\ rows m = rows q, cols m = cols q, size (data m) = size (data q) &
      forall k, k < size (data m) ->
        has_value (nth 0%float (data m) k) (nth RatDef.Q0 (data q) k)].
Proof.
case/and3P => /eqP er /eqP ec /(all2_nth _ 0%float RatDef.Q0) [sz vals].
by split.
Qed.


(** ** Doubles of equal value compare equal *)

Section DoubleValues.

Local Open Scope Z_scope.

Lemma valid_finite s m e :
  SpecFloat.valid_binary prec emax (S754_finite s m e) = true ->
  [/\ -1074 <= e, Z.pos (digits2_pos m) <= 53 &
      e = -1074 \/ Z.pos (digits2_pos m) = 53].
Proof.
rewrite /SpecFloat.valid_binary /bounded /canonical_mantissa.
move=> /andP[/Z.eqb_eq + _]; rewrite /fexp /SpecFloat.emin /prec /emax => ek.
by split; lia.
Qed.

Lemma digits2_log2 m : Z.pos (digits2_pos m) = Z.log2 (Z.pos m) + 1.
Proof.
have e p : digits2_pos p = Pos.size p by elim: p => //= p ->.
by case: m => [p|p|] //=; rewrite e; lia.
Qed.

Lemma scaled_mantissa_inj c m1 e1 m2 e2 :
  0 <= c -> - c <= e1 -> - c <= e2 ->
  Z.pos (digits2_pos m1) <= 53 -> Z.pos (digits2_pos m2) <= 53 ->
  e1 = - c \/ Z.pos (digits2_pos m1) = 53 ->
  e2 = - c \/ Z.pos (digits2_pos m2) = 53 ->
  Z.pos m1 * 2 ^ (e1 + c) = Z.pos m2 * 2 ^ (e2 + c) ->
  m1 = m2 /\ e1 = e2.
Proof.
move=> c0 l1 l2 d1 d2 n1 n2 E.
have := congr1 Z.log2 E; rewrite !Z.log2_mul_pow2 //; try lia.
move: d1 d2 n1 n2; rewrite !digits2_log2 => d1 d2 n1 n2 L.
have ee : e1 = e2 by lia.
split=> //; move: E; rewrite ee => /Z.mul_cancel_r E.
by have [] := E (Z.pow_nonzero 2 (e2 + c) ltac:(lia) ltac:(lia)).
Qed.

Lemma finite_value_scaled c s m e :
  0 <= c -> - c <= e ->
  RatDef.Qnum (finite_value s m e) * 2 ^ c =
  (if s then Z.neg m else Z.pos m) * 2 ^ (e + c) *
  Z.pos (RatDef.Qden (finite_value s m e)).
Proof.
move=> c0 le; rewrite /finite_value; set n := if s then _ else _.
case: e le => [|k|k] le; cbn [RatDef.Qnum RatDef.Qden].
- by rewrite Z.mul_1_r.
- by rewrite Z.mul_1_r Z.pow_pos_fold Z.pow_add_r ?Z.mul_assoc //; lia.
rewrite Pos2Z.inj_pow -Z.mul_assoc -Z.pow_add_r; try lia.
by congr (_ * 2 ^ _); lia.
Qed.

Lemma finite_value_inj s1 m1 e1 s2 m2 e2 :
  SpecFloat.valid_binary prec emax (S754_finite s1 m1 e1) = true ->
  SpecFloat.valid_binary prec emax (S754_finite s2 m2 e2) = true ->
  RatDef.Qeq_bool (finite_value s1 m1 e1) (finite_value s2 m2 e2) ->
  [/\ s1 = s2, m1 = m2 & e1 = e2].
Proof.
move=> /valid_finite[l1 d1 n1] /valid_finite[l2 d2 n2]; rewrite /RatDef.Qeq_bool => /Z.eqb_eq E.
have c0 : 0 <= 1074 by [].
have := finite_value_scaled s1 m1 c0 l1.
have := finite_value_scaled s2 m2 c0 l2.
move: E; set q1 := finite_value s1 _ _; set q2 := finite_value s2 _ _.
move: (2 ^ 1074) => P; set S1 := _ * 2 ^ (e1 + _); set S2 := _ * 2 ^ (e2 + _).
move=> E E2 E1.
have ES : S1 = S2.
  have : S1 * (Z.pos (RatDef.Qden q1) * Z.pos (RatDef.Qden q2)) =
         S2 * (Z.pos (RatDef.Qden q1) * Z.pos (RatDef.Qden q2)).
    move: E E1 E2; rewrite /RatDef.Qeq_bool.
    move: (Z.pos (RatDef.Qden q1)) (Z.pos (RatDef.Qden q2)) => D1 D2.
    move: (RatDef.Qnum q1) (RatDef.Qnum q2) => N1 N2 E E1 E2.
    rewrite Z.mul_assoc -E1 [X in _ = S2 * X]Z.mul_comm Z.mul_assoc -E2.
    rewrite -!Z.mul_assoc (Z.mul_comm P D2) (Z.mul_comm P D1) !Z.mul_assoc.
    by rewrite E.
  by move/Z.mul_cancel_r; apply.
have p1 : 0 < 2 ^ (e1 + 1074) by apply: Z.pow_pos_nonneg; lia.
have p2 : 0 < 2 ^ (e2 + 1074) by apply: Z.pow_pos_nonneg; lia.
have es : s1 = s2.
  move: ES; rewrite /S1 /S2; case: (s1); case: (s2) => // ES.
    have : Z.neg m1 * 2 ^ (e1 + 1074) < 0 by apply: Z.mul_neg_pos.
    have : 0 < Z.pos m2 * 2 ^ (e2 + 1074) by apply: Z.mul_pos_pos.
    by lia.
  have : Z.neg m2 * 2 ^ (e2 + 1074) < 0 by apply: Z.mul_neg_pos.
  have : 0 < Z.pos m1 * 2 ^ (e1 + 1074) by apply: Z.mul_pos_pos.
  by lia.
have EM : Z.pos m1 * 2 ^ (e1 + 1074) = Z.pos m2 * 2 ^ (e2 + 1074).
  move: ES; rewrite /S1 /S2 es; case: (s2) => //.
  by rewrite -!Pos2Z.opp_pos !Z.mul_opp_l => /Z.opp_inj.
by have [] := scaled_mantissa_inj c0 l1 l2 d1 d2 n1 n2 EM.
Qed.

End DoubleValues.

Lemma value_finite x s m e :
  Prim2SF x = S754_finite s m e -> value x = Some (finite_value s m e).
Proof. by rewrite /value => ->. Qed.

Lemma finite_value_neq0 s m e :
  RatDef.Qeq_bool (finite_value s m e) RatDef.Q0 = false.
Proof.
by rewrite /RatDef.Qeq_bool; case: e => [|k|k]; case: s;
  rewrite /= -?Pos2Z.inj_pow_pos.
Qed.

Lemma Qeq_bool_sym p q : RatDef.Qeq_bool p q = RatDef.Qeq_bool q p.
Proof. by rewrite /RatDef.Qeq_bool Z.eqb_sym. Qed.

Lemma Qeq_bool_trans p q r :
  RatDef.Qeq_bool p q -> RatDef.Qeq_bool q r -> RatDef.Qeq_bool p r.
Proof. by rewrite !(in_field_eq rat) => /eqP -> /eqP ->. Qed.

Lemma SFeqb_refl s m e :
  SFeqb (S754_finite s m e) (S754_finite s m e) = true.
Proof.
by rewrite /SFeqb /SFcompare Z.compare_refl Pos.compare_cont_refl; case: s.
Qed.

(** Two doubles of the same value compare equal. *)
Lemma same_value_eqb x y p q :
  has_value x p -> has_value y q -> RatDef.Qeq_bool p q ->
  PrimFloat.eqb x y = true.
Proof.
rewrite /has_value FloatAxioms.eqb_spec.
have := Prim2SF_valid x; have := Prim2SF_valid y.
case ex: (Prim2SF x) => [s1|s1||s1 m1 e1]; rewrite /value ex //;
case ey: (Prim2SF y) => [s2|s2||s2 m2 e2] //= vy vx.
- move=> h0 hv pq; have := Qeq_bool_trans (Qeq_bool_trans h0 pq) _.
  by move/(_ _ (etrans (Qeq_bool_sym _ _) hv)); rewrite Qeq_bool_sym finite_value_neq0.
- move=> hv h0 pq; have := Qeq_bool_trans (Qeq_bool_trans hv pq) _.
  by move/(_ _ (etrans (Qeq_bool_sym _ _) h0)); rewrite finite_value_neq0.
move=> h1 h2 pq.
have := Qeq_bool_trans (Qeq_bool_trans h1 pq) (etrans (Qeq_bool_sym _ _) h2).
by case/(finite_value_inj vx vy) => -> -> ->; apply: SFeqb_refl.
Qed.

(** ** The determinant of the transpose, without rounding *)

Lemma exact_values_transpose (a : Matrix binary64) :
  exact_values (matrix_transpose a) = matrix_transpose (exact_values a).
Proof.
exact: (esym (@matrix_transpose_map binary64 rational
                (fun x => odflt RatDef.Q0 (value x)) (erefl _) a)).
Qed.

Lemma exact_values_well_formed (a : Matrix binary64) :
  well_formed a -> well_formed (exact_values a).
Proof. by rewrite /well_formed /= size_map. Qed.

Section UnroundedDeterminant.

Local Open Scope ring_scope.
Local Notation phi := (in_field rat).
Local Notation mor := (in_field_morphism rat).
Local Notation in_rat := (@map_matrix rational (exact rat) phi).

Lemma runs_through_completes (a : Matrix rational) :
  runs_through a -> det_completes (in_rat a).
Proof.
rewrite -(@runs_through_map rational (exact rat) phi mor a).
by rewrite /runs_through /det_completes; case: (for_exit _ _ _).
Qed.

(** On rational numbers, when the elimination runs through for a matrix and
    for its transpose, the two determinants are the same number. *)
Lemma rational_transpose_determinant (a : Matrix rational) :
  rows a = cols a -> well_formed a ->
  runs_through a -> runs_through (matrix_transpose a) ->
  RatDef.Qeq_bool (matrix_determinant (Some (matrix_transpose a))).1
                  (matrix_determinant (Some a)).1.
Proof.
move=> sq wf /runs_through_completes ca /runs_through_completes.
rewrite -(@matrix_transpose_map rational (exact rat) phi (phi_zero mor)) => ct.
have sq' : rows (in_rat a) = cols (in_rat a) by [].
have wf' := @well_formed_map rational (exact rat) phi a wf.
have := @transpose_determinant_field rat _ sq' wf' ca ct.
rewrite (@matrix_transpose_map rational (exact rat) phi (phi_zero mor)).
rewrite !(@matrix_determinant_map rational (exact rat) phi mor).
by rewrite (in_field_eq rat) => ->.
Qed.

End UnroundedDeterminant.



(** Rounding alone breaks the product: on [rounded_inverse_example] no
    pivot is below [EPS] and no entry is skipped, and the product of the
    matrix and the inverse returned has 0 where the identity has 1. *)
Example inverse_product_rounded :
  [/\ invertible64 rounded_inverse_example,
      skips_zeros 2 (iota 0 2) (inv_init (exact_values rounded_inverse_example)),
      exists2 b, matrix_inverse (Some rounded_inverse_example) = (Some b, [::]) &
        matrix_multiply (Some rounded_inverse_example) (Some b) =
          Some (M64 2 2 [:: 0; 0; 0; 1]%float) &
      within 0.5 (M64 2 2 [:: 0; 0; 0; 1]%float) (identity_matrix binary64 2) = false].
Proof.
split; [by vm_compute | by vm_compute | | by vm_compute].
by eexists; [vm_compute; reflexivity | vm_compute].
Qed.

(** So the skip rule is not the only obstacle: C1 restricted to the
    matrices on which only zero entries are skipped still fails. *)
Lemma inverse_product_needs_no_rounding :
  ~ (forall a : Matrix binary64,
       well_formed a -> invertible64 a ->
       skips_zeros (rows a) (iota 0 (rows a)) (inv_init (exact_values a)) ->
       exists b p : Matrix binary64,
         [/\ (matrix_inverse (Some a)).1 = Some b,
             matrix_multiply (Some a) (Some b) = Some p &
             within 0.5 p (identity_matrix binary64 (rows a))]).
Proof.
move/(_ rounded_inverse_example (erefl _) (erefl _) (erefl _)) => [b [p [eb ep]]].
move: eb ep; vm_compute; case=> <-; vm_compute; case=> <-.
by vm_compute.
Qed.


(** Rounding alone separates the two determinants: on
    [rounded_determinant_example] both eliminations run through all the
    columns, on doubles and on rational numbers, and the two results differ
    by more than the relative tolerance [1e-9]. *)
Example transpose_determinant_rounded :
  [/\ runs_through rounded_determinant_example,
      runs_through (matrix_transpose rounded_determinant_example),
      runs_through (exact_values rounded_determinant_example),
      runs_through (exact_values (matrix_transpose rounded_determinant_example)) &
      rel_close 0x1.12e0be826d695p-30
        (matrix_determinant (Some (matrix_transpose rounded_determinant_example))).1
        (matrix_determinant (Some rounded_determinant_example)).1 = false].
Proof. by split; vm_compute. Qed.

(** So the cutoff is not the only obstacle: C8 restricted to the matrices
    on which both eliminations run through still fails. *)
Lemma transpose_determinant_needs_no_rounding :
  ~ (forall a : Matrix binary64,
       rows a = cols a -> well_formed a ->
       runs_through a -> runs_through (matrix_transpose a) ->
       runs_through (exact_values a) ->
       runs_through (exact_values (matrix_transpose a)) ->
       rel_close 0x1.12e0be826d695p-30
         (matrix_determinant (Some (matrix_transpose a))).1
         (matrix_determinant (Some a)).1).
Proof.
by move/(_ rounded_determinant_example (erefl _) (erefl _) (erefl _) (erefl _)
           (erefl _) (erefl _)); vm_compute.
Qed.

(** ** The transpose of a product *)

Lemma SFmul_comm prec emax (x y : spec_float) :
  SFmul prec emax x y = SFmul prec emax y x.
Proof.
case: x => [sx|sx| |sx mx ex]; case: y => [sy|sy| |sy my ey] //=;
  try by case: sx; case: sy.
by rewrite Pos.mul_comm Z.add_comm Bool.xorb_comm.
Qed.

Lemma float_mul_comm (x y : float) : PrimFloat.mul x y = PrimFloat.mul y x.
Proof. by apply: Prim2SF_inj; rewrite !mul_spec /SF64mul SFmul_comm. Qed.

Section TransposeProduct.

Variable A : Arith.
Hypothesis mulC : forall x y : A, mul x y = mul y x.

Lemma dot_upto_transpose (a b : Matrix A) m r c :
  m <= cols a -> cols a = rows b -> r < rows a -> c < cols b ->
  dot_upto (matrix_transpose b) (matrix_transpose a) m c r = dot_upto a b m r c.
Proof.
move=> le sab rn cn.
have [erb ecb [szb vb]] := matrix_transpose_spec b.
have [era eca [sza va]] := matrix_transpose_spec a.
elim: m le => [|m IH] le //; rewrite !dot_uptoS IH ?(ltnW le) //.
rewrite mulC {1 2}/matrix_get ecb eca vb -?sab // va //.
Qed.

Lemma transpose_product (a b : Matrix A) :
  omap (@matrix_transpose A) (matrix_multiply (Some a) (Some b)) =
    matrix_multiply (Some (matrix_transpose b)) (Some (matrix_transpose a)).
Proof.
have [erb ecb _] := matrix_transpose_spec b.
have [era eca _] := matrix_transpose_spec a.
case: (cols a =P rows b) => [sab|/eqP nab]; last first.
  by rewrite (multiply_mismatch nab) multiply_mismatch // ecb era eq_sym.
have sba : cols (matrix_transpose b) = rows (matrix_transpose a) by rewrite ecb era.
have [p [-> erp ecp [szp vp]]] := matrix_multiply_spec sab.
have [q [-> erq ecq agq]] := matrix_multiply_spec sba.
have [ert ect agt] := matrix_transpose_spec p.
rewrite erb eca ecb in agq; rewrite erp ecp in agt.
congr Some; apply: (matrix_ext _ _ _ _ _ agq); rewrite ?ert ?ect ?erq ?ecq ?erb ?eca //.
apply: agrees_ext agt => j i jn im.
by rewrite /matrix_get ecp vp // -sab dot_upto_transpose // sab.
Qed.

End TransposeProduct.

(** X19. On doubles the transpose of a product is the product of the
    transposes in the opposite order, entry for entry and bit for bit, and
    one product is refused exactly when the other is: the two sums add the
    same products in the same order, and the multiplication of doubles
    commutes. *)
Theorem transpose_of_product (a b : Matrix binary64) :
  omap (@matrix_transpose binary64) (matrix_multiply (Some a) (Some b)) =
    matrix_multiply (Some (matrix_transpose b)) (Some (matrix_transpose a)).
Proof. exact: (@transpose_product binary64 float_mul_comm a b). Qed.

(** ** The pivot search on doubles *)

Lemma SFltb_neg_trans (x y z : spec_float) :
  x <> S754_nan -> y <> S754_nan ->
  SFltb x y = false -> SFltb x z -> SFltb y z.
Proof.
rewrite /SFltb /SFcompare.
case: x => [sx|sx| |sx mx ex] // _; case: y => [sy|sy| |sy my ey] // _;
  case: z => [sz|sz| |sz mz ez] //;
  try (by case: sx; case: sy; case: sz); try (by case: sx; case: sy);
  try (by case: sx; case: sz); try (by case: sy; case: sz).
rewrite -![Pos.compare_cont Eq _ _]/(Pos.compare _ _).
case: sx; case: sy; case: sz => //;
  case: (Z.compare_spec ex ey) => // exy; case: (Z.compare_spec ey ez) => // eyz;
  case: (Z.compare_spec ex ez) => // exz; try lia;
  case: (Pos.compare_spec mx my) => // mxy; case: (Pos.compare_spec my mz) => // myz;
  case: (Pos.compare_spec mx mz) => // mxz; try lia.
Qed.

Lemma SFleb_total (x y : spec_float) :
  x <> S754_nan -> y <> S754_nan -> SFltb x y = false -> SFleb y x.
Proof.
rewrite /SFltb /SFleb /SFcompare.
case: x => [sx|sx| |sx mx ex] // _; case: y => [sy|sy| |sy my ey] // _;
  try (by case: sx; case: sy); try (by case: sx); try (by case: sy).
rewrite -![Pos.compare_cont Eq _ _]/(Pos.compare _ _).
case: sx; case: sy => //;
  case: (Z.compare_spec ex ey) => // exy; case: (Z.compare_spec ey ex) => // eyx;
  try lia;
  case: (Pos.compare_spec mx my) => // mxy; case: (Pos.compare_spec my mx) => // myx;
  try lia.
Qed.

Lemma not_nan_spec (x : float) : PrimFloat.is_nan x = false -> Prim2SF x <> S754_nan.
Proof.
by rewrite /PrimFloat.is_nan FloatAxioms.eqb_spec; case: (Prim2SF x).
Qed.

Lemma abs_not_nan (x : float) :
  PrimFloat.is_nan x = false -> Prim2SF (PrimFloat.abs x) <> S754_nan.
Proof. by move/not_nan_spec; rewrite abs_spec; case: (Prim2SF x). Qed.

(** X20. On doubles, when no entry of column [i] in the rows [i .. n-1] is
    a NaN, the pivot search returns a row between [i] and [n - 1] whose
    entry in column [i] is of the largest magnitude among these rows, and
    the first such row: every row before it has a strictly smaller entry. *)
Theorem pivot_is_largest (w n i : nat) (M : seq binary64) :
  i < n ->
  (forall r, i <= r < n -> PrimFloat.is_nan (rd M (r * w + i)) = false) ->
  [/\ i <= find_pivot w n i M < n,
      forall r, i <= r < n ->
        PrimFloat.leb (PrimFloat.abs (rd M (r * w + i)))
                      (PrimFloat.abs (rd M (find_pivot w n i M * w + i))) = true &
      forall r, i <= r < find_pivot w n i M ->
        PrimFloat.ltb (PrimFloat.abs (rd M (r * w + i)))
                      (PrimFloat.abs (rd M (find_pivot w n i M * w + i))) = true].
Proof.
move=> lt fin; pose mag r := PrimFloat.abs (rd M (r * w + i)).
have num r : i <= r < n -> Prim2SF (mag r) <> S754_nan.
  by move=> /fin; apply: abs_not_nan.
pose P (k piv : nat) :=
  [/\ i <= piv < n,
      forall r, i <= r < k -> PrimFloat.ltb (mag piv) (mag r) = false &
      forall r, i <= r < piv -> PrimFloat.ltb (mag r) (mag piv) = true].
have [rng le_piv lt_piv] : P n (@find_pivot binary64 w n i M).
  rewrite /find_pivot; apply: (@for_range_inv _ P); first exact: ltnW.
    by split=> [|r|r]; rewrite ?leqnn //; case: ltngtP.
  move=> k piv /andP[ik kn] [rp le_piv lt_piv].
  rewrite -/(mag piv) -/(mag k) /=.
  case lpk: (PrimFloat.ltb (mag piv) (mag k)); last first.
    split=> // r /andP[ir]; rewrite ltnS leq_eqVlt => /orP[/eqP -> //|rk].
    by apply: le_piv; rewrite ir.
  split=> [|r /andP[ir]|r /andP[ir rk]]; first by rewrite ik.
    rewrite ltnS leq_eqVlt => /orP[/eqP ->|rk]; first exact: float_ltb_irrefl.
    case lkr: (PrimFloat.ltb _ _) => //.
    by have := float_ltb_trans lpk lkr; rewrite le_piv // ir.
  have rn : i <= r < n by rewrite ir (ltn_trans rk).
  have := le_piv r; rewrite ir rk => /(_ isT); move: lpk.
  rewrite !ltb_spec => lpk lpr.
  exact: SFltb_neg_trans (num _ rp) (num _ rn) lpr lpk.
split=> // r rn; have := le_piv r rn; rewrite ltb_spec leb_spec.
exact: SFleb_total (num _ rng) (num _ rn).
Qed.

Lemma pivot_is_largest_witness :
  [/\ 0 <= find_pivot 3 3 0 pivot_example < 3,
      forall r, 0 <= r < 3 ->
        PrimFloat.leb (PrimFloat.abs (rd pivot_example (r * 3 + 0)))
          (PrimFloat.abs (rd pivot_example (find_pivot 3 3 0 pivot_example * 3 + 0))) = true &
      forall r, 0 <= r < find_pivot 3 3 0 pivot_example ->
        PrimFloat.ltb (PrimFloat.abs (rd pivot_example (r * 3 + 0)))
          (PrimFloat.abs (rd pivot_example (find_pivot 3 3 0 pivot_example * 3 + 0))) = true].
Proof.
apply: (@pivot_is_largest 3 3 0 pivot_example isT).
by do 3![case=> [_|] //].
Defined.

Example pivot_example_row : find_pivot 3 3 0 pivot_example = 1.
Proof. by vm_compute. Qed.
